(** * serverless-auto-swagger: route-to-schema synthesis

    A shallow embedding of [src/index.ts] (class [ServerlessAutoSwagger])
    and the properties of its path, parameter, response and definition
    generation.

    Modelling conventions.
    - A JavaScript string is a [string]; the regular expression and the
      string methods used by the plugin act on single characters only.
    - An object that the code enumerates with [Object.entries] is the list
      of its entries in enumeration order; an object that the code builds by
      assignment ([paths], [formatted], [combinedDefinitions]) is a [gmap].
    - An optional field is an [option]; the tests the code performs on such
      a field are JavaScript truthiness tests and are written out
      ([truthy_string], [truthy_trigger]): the empty string is falsy.
    - The plugin instance is the record [Plugin]; a method that assigns a
      field of [this] returns the updated record.
    - Property names are ordinary keys: the name [__proto__], whose
      assignment JavaScript treats apart, is outside the model. *)

From Stdlib Require Import Ascii String List Bool Arith Lia.
From stdpp Require Import base option list strings gmap fin_maps.

Open Scope string_scope.
Open Scope list_scope.

#[local] Set Warnings "-clear-no-such-hyp".

(** ** Strings *)

(** The two characters excluded by the class [[^{\}]]. *)
Definition is_brace (c : ascii) : bool :=
  (c =? "{")%char || (c =? "}")%char.

(** A non-empty string is truthy, the empty string is falsy. *)
Definition truthy_string (s : string) : bool :=
  match s with
  | EmptyString => false
  | String _ _ => true
  end.

(** ** The path-parameter pattern [/[^{\}]+(?=})/g]

    [String.prototype.match] with a global pattern collects every match,
    scanning from [lastIndex = 0]: at the current index the pattern is
    tried; when it fails the index moves one character to the right; when
    it succeeds the match is collected and the index moves to the end of
    the match. *)

(** [[^{\}]+] is greedy: the longest run of characters other than the two
    braces, paired with the rest of the subject. *)
Fixpoint span_name (s : string) : string * string :=
  match s with
  | EmptyString => (EmptyString, EmptyString)
  | String c s' =>
      if is_brace c then (EmptyString, s)
      else let (n, r) := span_name s' in (String c n, r)
  end.

(** One attempt at the current index.  The run must be non-empty and the
    look-ahead [(?=})] must see a closing brace.  Giving characters back
    cannot help: after a shorter run the next character belongs to the
    class and so is not a closing brace. *)
Definition exec_here (s : string) : option string :=
  match span_name s with
  | (String c n, String "}" _) => Some (String c n)
  | _ => None
  end.

(** The scan.  [skip] is the number of characters left before [lastIndex];
    the recursion is on the subject. *)
Fixpoint match_from (skip : nat) (s : string) : list string :=
  match s with
  | EmptyString => []
  | String _ s' =>
      match skip with
      | S k => match_from k s'
      | O =>
          match exec_here s with
          | Some m => m :: match_from (String.length m - 1) s'
          | None => match_from 0 s'
          end
      end
  end.

(** [path.match(/[^{\}]+(?=})/g)]: [null] ([None]) when nothing matches. *)
Definition match_pathParameters (path : string) : option (list string) :=
  match match_from 0 path with
  | [] => None
  | m :: ms => Some (m :: ms)
  end.

(** [path.match(...) || []] *)
Definition pathParameters_of (path : string) : list string :=
  default [] (match_pathParameters path).

(** ** Placeholders of a path template, as the specification words them

    A placeholder is a substring [{name}]: an opening brace, a non-empty
    name free of braces, a closing brace.  [placeholders_spec] lists the
    names of the placeholders of a template from left to right. *)

(** The name of a placeholder whose opening brace has just been read. *)
Definition placeholder_name (s : string) : option string :=
  match span_name s with
  | (String c n, String "}" _) => Some (String c n)
  | _ => None
  end.

Fixpoint placeholders_spec (s : string) : list string :=
  match s with
  | EmptyString => []
  | String c s' =>
      if (c =? "{")%char then
        match placeholder_name s' with
        | Some n => n :: placeholders_spec s'
        | None => placeholders_spec s'
        end
      else placeholders_spec s'
  end.

(** One pass over a template that records, for every non-empty brace-free
    run directly followed by a closing brace, the run and whether an opening
    brace directly precedes it.  [opened] tells whether the run being read
    started right after an opening brace, [acc] is the run read so far. *)
Fixpoint closed_runs (opened : bool) (acc : string) (s : string)
  : list (bool * string) :=
  match s with
  | EmptyString => []
  | String c s' =>
      if (c =? "}")%char then
        (if truthy_string acc then [(opened, acc)] else [])
          ++ closed_runs false EmptyString s'
      else if (c =? "{")%char then closed_runs true EmptyString s'
      else closed_runs opened (acc +:+ String c EmptyString) s'
  end.

(** A template has no stray closing brace when every non-empty brace-free
    run that a closing brace ends begins right after an opening brace. *)
Definition no_stray_close (s : string) : bool :=
  forallb fst (closed_runs false EmptyString s).

(** A template written as literal text and placeholders, and the string
    it stands for. *)
Inductive Segment :=
| Literal (text : string)
| Placeholder (name : string).

Fixpoint brace_free (s : string) : bool :=
  match s with
  | EmptyString => true
  | String c s' => negb (is_brace c) && brace_free s'
  end.

Definition segment_ok (seg : Segment) : bool :=
  match seg with
  | Literal text => brace_free text
  | Placeholder name => truthy_string name && brace_free name
  end.

Fixpoint render (segs : list Segment) : string :=
  match segs with
  | [] => EmptyString
  | Literal text :: rest => text +:+ render rest
  | Placeholder name :: rest => "{" +:+ name +:+ "}" +:+ render rest
  end.

Fixpoint segment_names (segs : list Segment) : list string :=
  match segs with
  | [] => []
  | Literal _ :: rest => segment_names rest
  | Placeholder name :: rest => name :: segment_names rest
  end.

(** ** Data model *)

(** [{ $ref: ... }] *)
Record SchemaRef := { ref : string }.

(** An entry of an operation's [parameters] array.  The body parameter
    carries [description] and [schema]; a path parameter carries [type]. *)
Record ParameterSpec := {
  param_in : string;
  param_name : string;
  param_description : option string;
  param_required : bool;
  param_schema : option SchemaRef;
  param_type : option string
}.

(** A declared response ([HttpResponses] value): a bare description or an
    object with optional [description] and [bodyType]. *)
Inductive HttpResponse :=
| ResponseString (responseDetails : string)
| ResponseObject (description bodyType : option string).

(** A swagger [Response]. *)
Record Response := {
  resp_description : string;
  resp_schema : option SchemaRef
}.

(** [EitherHttpEvent]: the object form of an [http] or [httpApi] trigger.
    [parameters_path] is [parameters?.path], the map from parameter name
    to its required flag, as [Object.entries] enumerates it. *)
Record EitherHttpEvent := {
  path : string;
  method : string;
  description : option string;
  swaggerTags : option (list string);
  bodyType : option string;
  parameters_path : option (list (string * bool));
  responses : option (list (string * HttpResponse))
}.

(** The value of [event.http] or [event.httpApi]: the shorthand string or
    the object form. *)
Inductive HttpTrigger :=
| Shorthand (s : string)
| Full (h : EitherHttpEvent).

(** An entry of [config.events]; an event of another kind has neither
    field. *)
Record Event := {
  http : option HttpTrigger;
  httpApi : option HttpTrigger
}.

Record FunctionConfig := { events : option (list Event) }.

(** The operation object stored at [paths[path][method]]. *)
Record Operation := {
  summary : string;
  op_description : string;
  tags : option (list string);
  operationId : string;
  consumes : list string;
  produces : list string;
  parameters : list ParameterSpec;
  op_responses : gmap string Response;
  security : option unit
}.

Abbreviation Paths := (gmap string (gmap string Operation)).

(** A schema definition: a JSON value. *)
#[warnings="-register-all"]
Inductive Json :=
| JNull
| JBool (b : bool)
| JNumber (n : Z)
| JString (s : string)
| JArray (l : list Json)
| JObject (l : list (string * Json)).

Record Info := { title : string; version : string }.

(** The [Swagger] document; [definitions] is not set on a fresh document. *)
Record Swagger := {
  swagger : string;
  info : Info;
  schemes : list string;
  definitions : option (gmap string Json);
  paths : Paths
}.

(** [serverless.service]: the service name, [custom?.swagger?.typefiles]
    and the function map in enumeration order. *)
Record Service := {
  service : string;
  typefiles : option (list string);
  functions : list (string * FunctionConfig)
}.

Inductive LogEntry :=
| CliLog (message : string)
| ConsoleLog (message : string).

(** The plugin instance: the service it reads, the document it builds and
    the lines it has printed. *)
Record Plugin := {
  serverless_service : Service;
  this_swagger : Swagger;
  printed : list LogEntry
}.

(** The initial value of the [swagger] field. *)
Definition initial_swagger : Swagger :=
  {| swagger := "2.0";
     info := {| title := ""; version := "1" |};
     schemes := ["https"];
     definitions := None;
     paths := ∅ |}.

(** ** formatResponses *)

(** The [Response] built for one entry: [typeof responseDetails == 'string']
    gives the description alone; otherwise
    [responseDetails.description || `${statusCode} response`] and, when
    [responseDetails.bodyType] is truthy, the schema reference. *)
Definition format_entry (statusCode : string) (responseDetails : HttpResponse)
  : Response :=
  match responseDetails with
  | ResponseString s => {| resp_description := s; resp_schema := None |}
  | ResponseObject d b =>
      {| resp_description :=
           match d with
           | Some s => if truthy_string s then s else statusCode +:+ " response"
           | None => statusCode +:+ " response"
           end;
         resp_schema :=
           match b with
           | Some name =>
               if truthy_string name
               then Some {| ref := "#/definitions/" +:+ name |}
               else None
           | None => None
           end |}
  end.

(** The callback of [Object.entries(responses).map]: the assignment to
    [formatted[statusCode]], for a status code other than [__proto__]. *)
Definition format_step (formatted : gmap string Response)
    (entry : string * HttpResponse) : gmap string Response :=
  let '(statusCode, responseDetails) := entry in
  <[statusCode := format_entry statusCode responseDetails]> formatted.

Definition formatResponses (responses : option (list (string * HttpResponse)))
  : gmap string Response :=
  match responses with
  | None =>
      {[ "200" := {| resp_description := "200 response"; resp_schema := None |} ]}
  | Some entries => fold_left format_step entries ∅
  end.

(** ** httpEventToSecurity *)

Definition httpEventToSecurity (http : EitherHttpEvent) : option unit := None.

(** ** httpEventToParameters *)

Definition bodyParameter (bodyType : string) : ParameterSpec :=
  {| param_in := "body";
     param_name := "body";
     param_description := Some "Body required in the request";
     param_required := true;
     param_schema := Some {| ref := "#/definitions/" +:+ bodyType |};
     param_type := None |}.

Definition pathParameter (name : string) (required : bool) : ParameterSpec :=
  {| param_in := "path";
     param_name := name;
     param_description := None;
     param_required := required;
     param_schema := None;
     param_type := Some "string" |}.

(** Modelled from the spec: [removeStringFromArray] of [./helperFunctions],
    which is outside [src/index.ts].  Step 3 of the parameter
    resolver removes a declared name from the names extracted from the
    template. *)
Definition removeStringFromArray_spec (array : list string) (str : string)
  : list string :=
  filter (fun x => x ≠ str) array.

(** What the proofs below ask of [removeStringFromArray]: it returns names
    of its argument, keeps every name other than the one removed, and on
    an array without repetition it returns such an array without the name
    removed. *)
Definition removes_name (rm : list string → string → list string) : Prop :=
  ∀ l s,
    (∀ x, x ∈ rm l s → x ∈ l) ∧
    (∀ x, x ≠ s → x ∈ l → x ∈ rm l s) ∧
    (NoDup l → NoDup (rm l s) ∧ s ∉ rm l s).

Section ParameterResolver.
Variable removeStringFromArray : list string → string → list string.

(** The second loop of the explicit branch: one parameter per declared
    name, the name struck from [pathParameters]. *)
Definition declared_step (st : list ParameterSpec * list string)
    (entry : string * bool) : list ParameterSpec * list string :=
  let '(parameters, pathParameters) := st in
  let '(param, required) := entry in
  (parameters ++ [pathParameter param required],
   removeStringFromArray pathParameters param).

Definition httpEventToParameters (httpEvent : EitherHttpEvent)
  : list ParameterSpec :=
  let parameters := [] in
  let parameters :=
    match bodyType httpEvent with
    | Some b => if truthy_string b then parameters ++ [bodyParameter b]
                else parameters
    | None => parameters
    end in
  let parameters :=
    match parameters_path httpEvent, match_pathParameters (path httpEvent) with
    | None, Some _ =>
        parameters
          ++ map (fun param => pathParameter param true)
                 (pathParameters_of (path httpEvent))
    | _, _ => parameters
    end in
  match parameters_path httpEvent with
  | Some rawPathParams =>
      let '(parameters, pathParameters) :=
        fold_left declared_step rawPathParams
                  (parameters, pathParameters_of (path httpEvent)) in
      parameters ++ map (fun param => pathParameter param true) pathParameters
  | None => parameters
  end.

(** ** generatePaths *)

Definition truthy_trigger (t : HttpTrigger) : bool :=
  match t with
  | Shorthand s => truthy_string s
  | Full _ => true
  end.

(** [event.http || event.httpApi] *)
Definition selected_trigger (event : Event) : option HttpTrigger :=
  match http event with
  | Some t => if truthy_trigger t then Some t else httpApi event
  | None => httpApi event
  end.

(** The [filter] callback. *)
Definition is_http_event (event : Event) : bool :=
  match selected_trigger event with
  | Some t => truthy_trigger t
  | None => false
  end.

(** [if (path[0] !== '/') path = `/${path}`] *)
Definition normalize_path (path : string) : string :=
  match path with
  | String "/" _ => path
  | _ => "/" +:+ path
  end.

Definition operation_of (functionName : string) (http : EitherHttpEvent)
  : Operation :=
  {| summary := functionName;
     op_description :=
       match description http with
       | Some d => if truthy_string d then d else ""
       | None => ""
       end;
     tags := swaggerTags http;
     operationId := functionName;
     consumes := ["application/json"];
     produces := ["application/json"];
     parameters := httpEventToParameters http;
     op_responses := formatResponses (responses http);
     security := httpEventToSecurity http |}.

(** The [map] callback applied to one event that passed the filter.  The
    shorthand form returns at once.  An event without trigger does not
    pass the filter.  The assignment to [paths[path][http.method]] is the
    one of an ordinary key: a method other than [__proto__]. *)
Definition add_event (functionName : string) (paths : Paths) (event : Event)
  : Paths :=
  match selected_trigger event with
  | Some (Full http) =>
      let path := normalize_path (path http) in
      let at_path := default ∅ (paths !! path) in
      <[path := <[method http := operation_of functionName http]> at_path]> paths
  | Some (Shorthand _) => paths
  | None => paths
  end.

Definition add_function (paths : Paths) (entry : string * FunctionConfig)
  : Paths :=
  let '(functionName, config) := entry in
  fold_left (add_event functionName)
            (filter (fun e => is_http_event e = true) (default [] (events config)))
            paths.

Definition synthesize_paths (functions : list (string * FunctionConfig))
  : Paths :=
  fold_left add_function functions ∅.

Definition set_paths (doc : Swagger) (p : Paths) : Swagger :=
  {| swagger := swagger doc;
     info := info doc;
     schemes := schemes doc;
     definitions := definitions doc;
     paths := p |}.

Definition generatePaths (this : Plugin) : Plugin :=
  {| serverless_service := serverless_service this;
     this_swagger :=
       set_paths (this_swagger this)
                 (synthesize_paths (functions (serverless_service this)));
     printed := printed this |}.

End ParameterResolver.

(** ** beforeGather *)

Definition set_title (doc : Swagger) (t : string) : Swagger :=
  {| swagger := swagger doc;
     info := {| title := t; version := version (info doc) |};
     schemes := schemes doc;
     definitions := definitions doc;
     paths := paths doc |}.

Definition beforeGather (this : Plugin) : Plugin :=
  {| serverless_service := serverless_service this;
     this_swagger :=
       set_title (this_swagger this) (service (serverless_service this));
     printed := printed this ++ [CliLog "Creating your Swagger File now"] |}.

(** ** gatherTypes *)

(** [data.includes(needle)] *)
Fixpoint includes (needle s : string) : bool :=
  String.prefix needle s
  || match s with
     | EmptyString => false
     | String _ s' => includes needle s'
     end.

(** [data.replace(/pattern/g, replacement)] for a non-empty pattern without
    operators: every occurrence found from left to right is replaced, the
    search resuming after the occurrence.  [skip] counts the characters of
    an occurrence still to be passed over. *)
Fixpoint replace_from (pattern replacement : string) (skip : nat) (s : string)
  : string :=
  match s with
  | EmptyString => EmptyString
  | String c s' =>
      match skip with
      | S k => replace_from pattern replacement k s'
      | O =>
          if truthy_string pattern && String.prefix pattern s
          then replacement
                 +:+ replace_from pattern replacement (String.length pattern - 1) s'
          else String c (replace_from pattern replacement 0 s')
      end
  end.

Definition to_definitions (data : string) : string :=
  replace_from "/components/schema" "/definitions" 0 data.

(** What the plugin calls outside its own code.  Each call either returns
    or throws ([None]).
    - [readFileSync filepath] is the text of the file.
    - [convert fileData] is the [data] field of what the converter built by
      [makeConverter] resolves to; [None] when it rejects.
    - [schemas_of text] is [JSON.parse(text).components.schemas] as the
      object spread sees it, that is its own entries.
    - [settle_order typesFile] lists the sources in the order in which
      their callbacks run to their end or fail: the callbacks are started
      together under [Promise.all] and each one suspends at
      [await convert]. *)
Record Host := {
  readFileSync : string → option string;
  convert : string → option string;
  schemas_of : string → option (gmap string Json);
  settle_order : list string → list string
}.

(** The body of the callback up to the assignment of [definition]: the
    schemas read from one source and whether the [anyOf] line is printed. *)
Definition convert_source (host : Host) (filepath : string)
  : option (bool * gmap string Json) :=
  match readFileSync host filepath with
  | None => None
  | Some fileData =>
      match convert host fileData with
      | None => None
      | Some data =>
          let definitionsData := to_definitions data in
          match schemas_of host definitionsData with
          | None => None
          | Some definition => Some (includes "anyOf" data, definition)
          end
      end
  end.

(** The spread [{ ...combinedDefinitions, ...definition }]: the entries of
    [definition] replace those of the same name. *)
Definition spread (combinedDefinitions definition : gmap string Json)
  : gmap string Json :=
  definition ∪ combinedDefinitions.

(** The callbacks in the order in which they settle.  A callback that
    completes has executed
    [combinedDefinitions = { ...combinedDefinitions, ...definition }];
    the first one that fails rejects [Promise.all] ([None]).  The result is
    what has been merged and printed when [gatherTypes] returns: a callback
    still running then can only print its [anyOf] line later and assign a
    variable that is no longer read. *)
Fixpoint merge_sources (host : Host) (order : list string)
    (combinedDefinitions : gmap string Json) (out : list LogEntry)
  : list LogEntry * option (gmap string Json) :=
  match order with
  | [] => (out, Some combinedDefinitions)
  | filepath :: rest =>
      match convert_source host filepath with
      | None => (out, None)
      | Some (anyOf, definition) =>
          merge_sources host rest (spread combinedDefinitions definition)
            (if anyOf then out ++ [ConsoleLog "includes anyOf"] else out)
      end
  end.

Definition set_definitions (doc : Swagger) (d : gmap string Json) : Swagger :=
  {| swagger := swagger doc;
     info := info doc;
     schemes := schemes doc;
     definitions := Some d;
     paths := paths doc |}.

(** [typeLocationOverride || ['./src/types/api-types.d.ts']] *)
Definition typesFile (this : Plugin) : list string :=
  default ["./src/types/api-types.d.ts"] (typefiles (serverless_service this)).

(** [gatherTypes]: when every callback completes the merged map is assigned
    to [swagger.definitions]; when one fails the [catch] clause prints the
    error and the assignment is not reached. *)
Definition gatherTypes (host : Host) (this : Plugin) : Plugin :=
  let out :=
    printed this
      ++ [CliLog "this is where we gather the types into a single file"] in
  match merge_sources host (settle_order host (typesFile this)) ∅ out with
  | (out, Some combinedDefinitions) =>
      {| serverless_service := serverless_service this;
         this_swagger := set_definitions (this_swagger this) combinedDefinitions;
         printed := out |}
  | (out, None) =>
      {| serverless_service := serverless_service this;
         this_swagger := this_swagger this;
         printed := out ++ [ConsoleLog "error getting types"] |}
  end.

(** ** Notions used to state the properties *)

(** A run that starts right after an opening brace and that a closing
    brace ends, if the pass is in such a run. *)
Definition pending_placeholder (acc s : string) : list string :=
  match span_name s with
  | (n, String "}" _) => if truthy_string (acc +:+ n) then [acc +:+ n] else []
  | _ => []
  end.

(** The body parameter of an event, if the code emits one. *)
Definition body_part (httpEvent : EitherHttpEvent) : list ParameterSpec :=
  match bodyType httpEvent with
  | Some b => if truthy_string b then [bodyParameter b] else []
  | None => []
  end.

(** The parameters of kind [path] and of kind [body] of a list. *)
Definition path_parameters (ps : list ParameterSpec) : list ParameterSpec :=
  filter (fun p => param_in p = "path") ps.

Definition body_parameters (ps : list ParameterSpec) : list ParameterSpec :=
  filter (fun p => param_in p = "body") ps.

(** The names declared by [parameters.path]. *)
Definition declared_names (httpEvent : EitherHttpEvent) : list string :=
  match parameters_path httpEvent with
  | Some rawPathParams => rawPathParams.*1
  | None => []
  end.

Definition declared_parameter (entry : string * bool) : ParameterSpec :=
  pathParameter entry.1 entry.2.

Definition required_parameter (name : string) : ParameterSpec :=
  pathParameter name true.

(** The routes of a function map: the events whose selected trigger is in
    object form, with the name of their function, in processing order. *)
Definition route_of (functionName : string) (event : Event)
  : option (string * EitherHttpEvent) :=
  match selected_trigger event with
  | Some (Full h) => Some (functionName, h)
  | _ => None
  end.

Definition routes (functions : list (string * FunctionConfig))
  : list (string * EitherHttpEvent) :=
  flat_map
    (fun entry => omap (route_of entry.1) (default [] (events entry.2)))
    functions.

(** A route whose HTTP trigger is declared in the shorthand form: the
    event has a trigger and every trigger it has is a string. *)
Definition shorthand_route (event : Event) : Prop :=
  match http event, httpApi event with
  | Some (Full _), _ => False
  | _, Some (Full _) => False
  | None, None => False
  | _, _ => True
  end.

(** The assignment [paths[path][http.method] = ...] for one route. *)
Definition add_route (rm : list string → string → list string)
    (paths : Paths) (route : string * EitherHttpEvent) : Paths :=
  let p := normalize_path (path route.2) in
  <[p := <[method route.2 := operation_of rm route.1 route.2]>
           (default ∅ (paths !! p))]> paths.

(** [paths[p][m]] *)
Definition operation_at (p m : string) (paths : Paths) : option Operation :=
  paths !! p ≫= (fun at_path => at_path !! m).

(** The last route of a list declared for a path and a method. *)
Definition declares (p m : string) (route : string * EitherHttpEvent) : Prop :=
  normalize_path (path route.2) = p ∧ method route.2 = m.

Global Instance declares_dec p m route : Decision (declares p m route).
Proof. unfold declares. apply _. Defined.

Definition last_route (p m : string) (rs : list (string * EitherHttpEvent))
  : option (string * EitherHttpEvent) :=
  last (filter (declares p m) rs).

(** Lower case of a character and of a string, for the unaccented Latin
    letters. *)
Definition lower_char (c : ascii) : ascii :=
  let n := nat_of_ascii c in
  if ((65 <=? n)%nat && (n <=? 90)%nat)%bool then ascii_of_nat (n + 32) else c.

Fixpoint to_lower (s : string) : string :=
  match s with
  | EmptyString => EmptyString
  | String c s' => String (lower_char c) (to_lower s')
  end.

(** The definition of a name in a list of schema maps: the one of the last
    map of the list that defines the name. *)
Fixpoint last_defined (name : string) (maps : list (gmap string Json))
  : option Json :=
  match maps with
  | [] => None
  | m :: rest =>
      match last_defined name rest with
      | Some d => Some d
      | None => m !! name
      end
  end.

(** The schema map read from a source. *)
Definition source_schemas (host : Host) (filepath : string)
  : option (gmap string Json) :=
  snd <$> convert_source host filepath.

(** The plugin with another function map. *)
Definition with_functions (this : Plugin) (fs : list (string * FunctionConfig))
  : Plugin :=
  {| serverless_service :=
       {| service := service (serverless_service this);
          typefiles := typefiles (serverless_service this);
          functions := fs |};
     this_swagger := this_swagger this;
     printed := printed this |}.

(** ** Sample inputs *)

Definition event_of (p m : string) : EitherHttpEvent :=
  {| path := p; method := m; description := None; swaggerTags := None;
     bodyType := None; parameters_path := None; responses := None |}.

Definition with_bodyType (b : string) (h : EitherHttpEvent) : EitherHttpEvent :=
  {| path := path h; method := method h; description := description h;
     swaggerTags := swaggerTags h; bodyType := Some b;
     parameters_path := parameters_path h; responses := responses h |}.

Definition with_parameters (d : list (string * bool)) (h : EitherHttpEvent)
  : EitherHttpEvent :=
  {| path := path h; method := method h; description := description h;
     swaggerTags := swaggerTags h; bodyType := bodyType h;
     parameters_path := Some d; responses := responses h |}.

Definition http_event (h : EitherHttpEvent) : Event :=
  {| http := Some (Full h); httpApi := None |}.

Definition shorthand_event (s : string) : Event :=
  {| http := Some (Shorthand s); httpApi := None |}.

Definition function_of (es : list Event) : FunctionConfig :=
  {| events := Some es |}.

Definition plugin_of (name : string) (files : option (list string))
    (fs : list (string * FunctionConfig)) : Plugin :=
  {| serverless_service :=
       {| service := name; typefiles := files; functions := fs |};
     this_swagger := initial_swagger;
     printed := [] |}.

Definition widget_one : Json := JObject [("type", JString "string")].
Definition widget_two : Json := JObject [("type", JString "object")].

(** A host with two sources that both define [Widget]; any other file
    cannot be read.  [order] is the order in which the callbacks settle. *)
Definition sample_host (order : list string → list string) : Host :=
  {| readFileSync := fun filepath =>
       if decide (filepath = "one.d.ts") then Some "one"
       else if decide (filepath = "two.d.ts") then Some "two"
       else None;
     convert := fun fileData => Some fileData;
     schemas_of := fun text =>
       if decide (text = "one") then Some {[ "Widget" := widget_one ]}
       else if decide (text = "two")
            then Some {[ "Widget" := widget_two; "Gadget" := JNull ]}
            else None;
     settle_order := order |}.

(** ** addEndpointsAndLambda *)

(** [object[key] = value] on an object given by its entries: the value of
    an existing key is replaced where the key stands, a new key comes last.
    Keys that are array indices, which are enumerated before the others,
    are outside the model. *)
Fixpoint assign_entry {A} (key : string) (value : A) (object : list (string * A))
  : list (string * A) :=
  match object with
  | [] => [(key, value)]
  | (k, v) :: rest =>
      if decide (k = key) then (key, value) :: rest
      else (k, v) :: assign_entry key value rest
  end.

Definition assign_step {A} (object : list (string * A)) (entry : string * A)
  : list (string * A) :=
  assign_entry entry.1 entry.2 object.

(** An object literal made of spreads: the entries of the spread objects
    are assigned, in order, to a fresh object. *)
Definition object_of {A} (entries : list (string * A)) : list (string * A) :=
  fold_left assign_step entries [].

(** [serverless.service.functions = { ...functions, ...swaggerFunctions }].
    [swaggerFunctions] is the default export of [./resources/functions]. *)
Definition addEndpointsAndLambda (swaggerFunctions : list (string * FunctionConfig))
    (this : Plugin) : Plugin :=
  with_functions this
    (object_of (functions (serverless_service this) ++ swaggerFunctions)).

(** ** generateSwagger *)

Definition newline : string := String (ascii_of_nat 10) EmptyString.

(** [generateSwagger]: the paths are generated, the document is serialized
    and handed to [writeFile].  [stringify] stands for
    [JSON.stringify(_, null, 2)]; the result is the plugin and the file
    written, name and contents. *)
Definition generateSwagger (rm : list string → string → list string)
    (stringify : Swagger → string) (this : Plugin)
  : Plugin * (string * string) :=
  let this := generatePaths rm this in
  (this,
   ("./swagger.js",
    "// this file was generated by serverless-auto-swagger" +:+ newline
      +:+ "module.exports = " +:+ stringify (this_swagger this) +:+ ";")).

(** ** The command and its hooks *)

Inductive Method :=
| BeforeGather
| GatherTypes
| GenerateSwagger
| AddEndpointsAndLambda.

(** [this.commands]: the lifecycle events of each command. *)
Definition commands : list (string * list string) :=
  [("generate-swagger",
    ["gatherTypes"; "generateSwagger"; "addEndpointsAndLambda"])].

(** [this.hooks] *)
Definition hooks : list (string * Method) :=
  [("before:generate-swagger:gatherTypes", BeforeGather);
   ("generate-swagger:gatherTypes", GatherTypes);
   ("generate-swagger:generateSwagger", GenerateSwagger);
   ("generate-swagger:addEndpointsAndLambda", AddEndpointsAndLambda);
   ("before:offline:start:init", AddEndpointsAndLambda)].

(** What the methods need from outside the class. *)
Record Environment := {
  env_removeStringFromArray : list string → string → list string;
  env_host : Host;
  env_stringify : Swagger → string;
  env_swaggerFunctions : list (string * FunctionConfig)
}.

(** The state of a run: the plugin and the files written so far. *)
Definition run_method (env : Environment) (m : Method)
    (st : Plugin * list (string * string)) : Plugin * list (string * string) :=
  let '(this, files) := st in
  match m with
  | BeforeGather => (beforeGather this, files)
  | GatherTypes => (gatherTypes (env_host env) this, files)
  | GenerateSwagger =>
      let '(this, file) :=
        generateSwagger (env_removeStringFromArray env) (env_stringify env) this in
      (this, files ++ [file])
  | AddEndpointsAndLambda =>
      (addEndpointsAndLambda (env_swaggerFunctions env) this, files)
  end.

(** The methods hooked to an event name, in the order of [hooks]. *)
Definition hooked (name : string) : list Method :=
  map snd (filter (fun h => h.1 = name) hooks).

(** The framework runs a command by going through its lifecycle events and,
    for each, through the hooks [before:], the event itself and [after:]. *)
Definition methods_of_command (command : string) : list Method :=
  match list_find (fun c => c.1 = command) commands with
  | Some (_, (_, events)) =>
      flat_map
        (fun event =>
           hooked ("before:" +:+ command +:+ ":" +:+ event)
             ++ hooked (command +:+ ":" +:+ event)
             ++ hooked ("after:" +:+ command +:+ ":" +:+ event))
        events
  | None => []
  end.

Definition run_command (env : Environment) (command : string) (this : Plugin)
  : Plugin * list (string * string) :=
  fold_left (fun st m => run_method env m st) (methods_of_command command)
            (this, []).

(** ** Further notions *)

(** The names a function map binds, as a finite map. *)
Definition function_map (fs : list (string * FunctionConfig))
  : gmap string FunctionConfig :=
  list_to_map fs.

(** The path and method a route is stored under. *)
Definition route_key (route : string * EitherHttpEvent) : string * string :=
  (normalize_path (path route.2), method route.2).

(** A name is defined by at most one of the schema maps. *)
Definition defined_once (maps : list (gmap string Json)) : Prop :=
  ∀ name,
    (length (filter (fun m : gmap string Json => is_Some (m !! name)) maps) ≤ 1)%nat.

(** The host with another order of completion. *)
Definition with_order (host : Host) (order : list string → list string) : Host :=
  {| readFileSync := readFileSync host;
     convert := convert host;
     schemas_of := schemas_of host;
     settle_order := order |}.

(** A host with two sources that define different names. *)
Definition pets_host (order : list string → list string) : Host :=
  {| readFileSync := fun filepath =>
       if decide (filepath = "pets.d.ts") then Some "pets"
       else if decide (filepath = "owners.d.ts") then Some "owners"
       else None;
     convert := fun fileData => Some fileData;
     schemas_of := fun text =>
       if decide (text = "pets") then Some {[ "Pet" := widget_one ]}
       else if decide (text = "owners") then Some {[ "Owner" := widget_two ]}
       else None;
     settle_order := order |}.

(** * Properties *)

(** ** Sample evaluations *)

Example match_user_id : match_pathParameters "user/{id}" = Some ["id"].
Proof. reflexivity. Qed.

Example match_two : pathParameters_of "/a/{x}/b/{y}/c" = ["x"; "y"].
Proof. reflexivity. Qed.

Example match_none : match_pathParameters "/a/b" = None.
Proof. reflexivity. Qed.

Example match_stray : pathParameters_of "a}/{b}" = ["a"; "b"].
Proof. reflexivity. Qed.

Example spec_stray : placeholders_spec "a}/{b}" = ["b"].
Proof. reflexivity. Qed.

Example spec_nested : placeholders_spec "{a{b}}{}" = ["b"].
Proof. reflexivity. Qed.

Example match_nested : pathParameters_of "{a{b}}{}" = ["b"].
Proof. reflexivity. Qed.

Example no_stray_close_template : no_stray_close "/shops/{shop}/items" = true.
Proof. reflexivity. Qed.

Example no_stray_close_stray : no_stray_close "users/id}" = false.
Proof. reflexivity. Qed.

Example to_definitions_ref :
  to_definitions "#/components/schema/Pet and #/components/schema/Owner"
  = "#/definitions/Pet and #/definitions/Owner".
Proof. reflexivity. Qed.

(** ** The pattern and the placeholders of a template *)

Lemma is_brace_false c :
  is_brace c = false → (c =? "}")%char = false ∧ (c =? "{")%char = false.
Proof.
  unfold is_brace. intros H. apply orb_false_elim in H. tauto.
Qed.

Lemma is_brace_true c :
  is_brace c = true → c = "{"%char ∨ c = "}"%char.
Proof.
  unfold is_brace. intros H. apply orb_true_elim in H.
  destruct H as [H|H]; apply Ascii.eqb_eq in H; auto.
Qed.

(** The rest left by [span_name] is empty or starts with a brace. *)
Lemma span_name_rest s n r :
  span_name s = (n, r) →
  r = EmptyString ∨ ∃ c r', r = String c r' ∧ is_brace c = true.
Proof.
  revert n r. induction s as [|c s IH]; intros n r; simpl.
  - intros [= <- <-]. by left.
  - destruct (is_brace c) eqn:Hc.
    + intros [= <- <-]. right. eauto.
    + destruct (span_name s) as [n' r'] eqn:Hs. intros [= <- <-]. eauto.
Qed.

(** Skipping exactly the run lands on the rest. *)
Lemma match_from_skip_run s n r :
  span_name s = (n, r) → match_from (String.length n) s = match_from 0 r.
Proof.
  revert n r. induction s as [|c s IH]; intros n r; simpl.
  - by intros [= <- <-].
  - destruct (is_brace c) eqn:Hc.
    + by intros [= <- <-].
    + destruct (span_name s) as [n' r'] eqn:Hs. intros [= <- <-]. simpl. eauto.
Qed.

(** No match starts at a brace. *)
Lemma match_from_brace c s :
  is_brace c = true → match_from 0 (String c s) = match_from 0 s.
Proof.
  intros Hc. cbn [match_from]. unfold exec_here. simpl. by rewrite Hc.
Qed.

(** A run that no closing brace ends yields no match at any of its
    positions. *)
Lemma match_from_unclosed s n r :
  span_name s = (n, r) →
  (∀ r', r ≠ String "}" r') →
  match_from 0 s = match_from 0 r.
Proof.
  revert n r. induction s as [|c s IH]; intros n r.
  - by intros [= <- <-].
  - intros Hsp Hr. destruct (is_brace c) eqn:Hc.
    + simpl in Hsp. rewrite Hc in Hsp. by injection Hsp as <- <-.
    + cbn [match_from]. unfold exec_here. rewrite Hsp.
      simpl in Hsp. rewrite Hc in Hsp.
      destruct (span_name s) as [n' r'] eqn:Hs. injection Hsp as <- <-.
      assert (match_from 0 s = match_from 0 r') as <- by eauto.
      destruct r' as [|a r'']; [done|].
      destruct (Ascii.eqb_spec a "}"); [subst; by destruct (Hr r'')|].
      destruct a as [[] [] [] [] [] [] [] []]; done.
Qed.

(** A run that a closing brace ends is the next match. *)
Lemma match_from_closed c s n r :
  span_name (String c s) = (String c n, String "}" r) →
  match_from 0 (String c s) = String c n :: match_from 0 r.
Proof.
  intros Hsp.
  change (match_from 0 (String c s))
    with (match exec_here (String c s) with
          | Some m => m :: match_from (String.length m - 1) s
          | None => match_from 0 s
          end).
  unfold exec_here. rewrite Hsp. f_equal.
  simpl in Hsp. destruct (is_brace c); [done|].
  destruct (span_name s) as [n' r'] eqn:Hs. injection Hsp as -> ->.
  cbn [String.length]. rewrite Nat.sub_succ, Nat.sub_0_r.
  rewrite (match_from_skip_run _ _ _ Hs). by apply match_from_brace.
Qed.

Lemma append_cons a s t : String a s +:+ t = String a (s +:+ t).
Proof. reflexivity. Qed.

Lemma append_empty_r s : s +:+ EmptyString = s.
Proof. induction s as [|a s IH]; [done|]. by rewrite append_cons, IH. Qed.

Lemma append_snoc s a t : (s +:+ String a EmptyString) +:+ t = s +:+ String a t.
Proof. induction s as [|b s IH]; [done|]. by rewrite !append_cons, IH. Qed.

Lemma span_name_length s n r :
  span_name s = (n, r) → String.length s = String.length n + String.length r.
Proof.
  revert n r. induction s as [|c s IH]; intros n r; simpl.
  - by intros [= <- <-].
  - destruct (is_brace c).
    + by intros [= <- <-].
    + destruct (span_name s) as [n' r'] eqn:Hs. intros [= <- <-].
      simpl. f_equal. eauto.
Qed.

Lemma span_name_empty s r : span_name s = (EmptyString, r) → r = s.
Proof.
  destruct s as [|c s]; simpl; [by intros [= <-]|].
  destruct (is_brace c); [by intros [= <-]|].
  by destruct (span_name s).
Qed.

Lemma span_name_cons s a n r :
  span_name s = (String a n, r) →
  ∃ s', s = String a s' ∧ is_brace a = false ∧ span_name s' = (n, r).
Proof.
  destruct s as [|c s]; simpl; [done|].
  destruct (is_brace c) eqn:Hc; [done|].
  destruct (span_name s) as [n' r'] eqn:Hs. intros [= -> -> ->]. eauto.
Qed.

(** The pass reads a whole run into its accumulator. *)
Lemma closed_runs_span o acc s n r :
  span_name s = (n, r) → closed_runs o acc s = closed_runs o (acc +:+ n) r.
Proof.
  revert acc n r. induction s as [|c s IH]; intros acc n r; simpl.
  - intros [= <- <-]. by rewrite append_empty_r.
  - destruct (is_brace c) eqn:Hc.
    + intros [= <- <-]. by rewrite append_empty_r.
    + destruct (span_name s) as [n' r'] eqn:Hs. intros [= <- <-].
      apply is_brace_false in Hc as [-> ->].
      rewrite (IH _ _ _ eq_refl). by rewrite append_snoc.
Qed.

(** The matches of the pattern are the runs that a closing brace ends. *)
Lemma match_from_closed_runs s o :
  match_from 0 s = map snd (closed_runs o EmptyString s).
Proof.
  remember (String.length s) as k eqn:Hk. revert s o Hk.
  induction k as [k IH] using lt_wf_ind. intros s o ->.
  destruct (span_name s) as [n r] eqn:Hsp.
  pose proof (span_name_length _ _ _ Hsp) as Hlen.
  rewrite (closed_runs_span _ _ _ _ _ Hsp).
  change (EmptyString +:+ n) with n.
  destruct n as [|a n].
  - pose proof (span_name_empty _ _ Hsp) as ->.
    destruct s as [|c s]; [done|].
    simpl in Hsp. destruct (is_brace c) eqn:Hc.
    + rewrite (match_from_brace _ _ Hc).
      destruct (is_brace_true _ Hc) as [-> | ->]; simpl;
        (apply (IH (String.length s)); [simpl; lia | done]).
    + destruct (span_name s). simplify_eq.
  - destruct (span_name_cons _ _ _ _ Hsp) as (s' & -> & Ha & Hs').
    destruct (span_name_rest _ _ _ Hsp) as [-> | (c & r' & -> & Hc)].
    + by rewrite (match_from_unclosed _ _ _ Hsp).
    + simpl in Hlen. destruct (is_brace_true _ Hc) as [-> | ->].
      * rewrite (match_from_unclosed _ _ _ Hsp) by done.
        rewrite (match_from_brace _ _ Hc). simpl.
        apply (IH (String.length r')); [simpl; lia | done].
      * rewrite (match_from_closed _ _ _ _ Hsp). simpl. f_equal.
        apply (IH (String.length r')); [simpl; lia | done].
Qed.

Lemma pathParameters_of_match path : pathParameters_of path = match_from 0 path.
Proof.
  unfold pathParameters_of, match_pathParameters.
  by destruct (match_from 0 path).
Qed.

Lemma pending_placeholder_name s :
  pending_placeholder EmptyString s
  = match placeholder_name s with Some n => [n] | None => [] end.
Proof.
  unfold pending_placeholder, placeholder_name.
  destruct (span_name s) as [n r]. change (EmptyString +:+ n) with n.
  destruct n as [|a n], r as [|c r]; try done.
  - by destruct c as [[] [] [] [] [] [] [] []].
  - by destruct c as [[] [] [] [] [] [] [] []].
Qed.

(** The placeholders of the specification are the runs that stand between
    an opening and a closing brace. *)
Lemma placeholders_spec_closed_runs s o acc :
  map snd (List.filter fst (closed_runs o acc s))
  = (if o then pending_placeholder acc s else []) ++ placeholders_spec s.
Proof.
  revert o acc. induction s as [|c s IH]; intros o acc.
  - by destruct o.
  - cbn [closed_runs placeholders_spec].
    destruct (Ascii.eqb_spec c "}") as [-> | Hclose].
    + rewrite List.filter_app, List.map_app, IH. simpl.
      unfold pending_placeholder. simpl. rewrite append_empty_r.
      by destruct o, (truthy_string acc).
    + destruct (Ascii.eqb_spec c "{") as [-> | Hopen].
      * rewrite IH, pending_placeholder_name.
        unfold pending_placeholder. simpl.
        destruct o; by destruct (placeholder_name s).
      * rewrite IH. f_equal. destruct o; [|done].
        unfold pending_placeholder. simpl.
        assert (is_brace c = false) as ->.
        { unfold is_brace. apply orb_false_intro; by apply Ascii.eqb_neq. }
        destruct (span_name s) as [n r]. by rewrite append_snoc.
Qed.

(** Every placeholder of the template is among the names the pattern
    extracts, in the same relative order. *)
Lemma placeholders_spec_sublist path :
  placeholders_spec path `sublist_of` pathParameters_of path.
Proof.
  rewrite pathParameters_of_match,
    (match_from_closed_runs _ false).
  pose proof (placeholders_spec_closed_runs path false EmptyString) as H.
  simpl in H. rewrite <- H. clear H.
  induction (closed_runs false EmptyString path) as [|[b n] l IH]; simpl.
  - constructor.
  - destruct b; simpl; [by apply sublist_skip | by apply sublist_cons].
Qed.

(** Without stray closing brace the pattern extracts exactly the
    placeholders. *)
Lemma pathParameters_of_placeholders path :
  no_stray_close path = true → pathParameters_of path = placeholders_spec path.
Proof.
  unfold no_stray_close. intros Hall.
  rewrite pathParameters_of_match, (match_from_closed_runs _ false).
  pose proof (placeholders_spec_closed_runs path false EmptyString) as H.
  simpl in H. rewrite <- H. clear H.
  induction (closed_runs false EmptyString path) as [|[b n] l IH]; [done|].
  simpl in *. apply andb_prop in Hall as [-> Hl]. simpl. f_equal. auto.
Qed.

(** A template made of brace-free literal text and of placeholders with
    non-empty brace-free names has no stray closing brace, and its
    placeholders are the ones it was written with. *)
Lemma closed_runs_literal o acc text rest :
  brace_free text = true →
  closed_runs o acc (text +:+ rest) = closed_runs o (acc +:+ text) rest.
Proof.
  revert acc. induction text as [|c text IH]; intros acc Hfree.
  - by rewrite append_empty_r.
  - simpl in Hfree. apply andb_prop in Hfree as [Hc Hfree].
    apply negb_true_iff, is_brace_false in Hc as [Hclose Hopen].
    rewrite append_cons. cbn [closed_runs]. rewrite Hclose, Hopen.
    rewrite IH by done. by rewrite append_snoc.
Qed.

Lemma closed_runs_render segs o acc :
  forallb segment_ok segs = true →
  closed_runs o acc (render segs)
  = map (fun name => (true, name)) (segment_names segs).
Proof.
  revert o acc. induction segs as [|[text | name] segs IH]; intros o acc Hok.
  - done.
  - simpl in *. apply andb_prop in Hok as [Htext Hok].
    rewrite (closed_runs_literal _ _ text) by done. by apply IH.
  - simpl in *. apply andb_prop in Hok as [Hname Hok].
    apply andb_prop in Hname as [Hne Hfree].
    change ("{" +:+ name +:+ "}" +:+ render segs)
      with (String "{" (name +:+ String "}" (render segs))).
    cbn [closed_runs]. simpl.
    change (EmptyString +:+ name +:+ "}" +:+ render segs)
      with (name +:+ String "}" (render segs)).
    rewrite (closed_runs_literal _ _ name) by done.
    change (EmptyString +:+ name) with name.
    cbn [closed_runs]. simpl. rewrite Hne. simpl.
    f_equal. by apply IH.
Qed.

Lemma render_no_stray_close segs :
  forallb segment_ok segs = true → no_stray_close (render segs) = true.
Proof.
  intros Hok. unfold no_stray_close. rewrite closed_runs_render by done.
  by induction (segment_names segs).
Qed.

Lemma render_placeholders segs :
  forallb segment_ok segs = true →
  placeholders_spec (render segs) = segment_names segs.
Proof.
  intros Hok.
  pose proof (placeholders_spec_closed_runs (render segs) false EmptyString)
    as H.
  simpl in H. rewrite <- H, closed_runs_render by done.
  induction (segment_names segs) as [|n l IH]; [done|]. simpl. by f_equal.
Qed.

(** ** The parameter resolver *)

(** The reading of [removeStringFromArray] taken from the specification
    meets the contract [removes_name]. *)
Lemma removeStringFromArray_spec_removes :
  removes_name removeStringFromArray_spec.
Proof.
  intros l s. unfold removeStringFromArray_spec. repeat split.
  - intros x Hx. by apply list_elem_of_filter in Hx as [_ Hx].
  - intros x Hne Hx. by apply list_elem_of_filter.
  - by apply NoDup_filter.
  - intros Hs. by apply list_elem_of_filter in Hs as [Hs _].
Qed.

Lemma fold_declared_step rm decl ps pps :
  fold_left (declared_step rm) decl (ps, pps)
  = (ps ++ map declared_parameter decl, fold_left rm decl.*1 pps).
Proof.
  revert ps pps. induction decl as [|[param required] decl IH]; intros ps pps.
  - simpl. by rewrite app_nil_r.
  - simpl. rewrite IH. by rewrite <- app_assoc.
Qed.

(** The list returned by [httpEventToParameters]: the body parameter, if
    any, then the path parameters. *)
Lemma httpEventToParameters_shape rm ev :
  httpEventToParameters rm ev
  = body_part ev
      ++ match parameters_path ev with
         | None => map required_parameter (pathParameters_of (path ev))
         | Some decl =>
             map declared_parameter decl
               ++ map required_parameter
                    (fold_left rm decl.*1 (pathParameters_of (path ev)))
         end.
Proof.
  unfold httpEventToParameters, body_part.
  set (body := match bodyType ev with
               | Some b => if truthy_string b then [] ++ [bodyParameter b] else []
               | None => []
               end).
  assert (body = match bodyType ev with
                 | Some b => if truthy_string b then [bodyParameter b] else []
                 | None => []
                 end) as Hbody by done.
  rewrite <- Hbody. clearbody body. clear Hbody.
  destruct (parameters_path ev) as [decl|].
  - rewrite fold_declared_step. by rewrite <- app_assoc.
  - unfold pathParameters_of.
    destruct (match_pathParameters (path ev)); [done|].
    simpl. by rewrite app_nil_r.
Qed.

Lemma path_parameters_body_part ev : path_parameters (body_part ev) = [].
Proof.
  unfold body_part.
  destruct (bodyType ev) as [b|]; [|done]. by destruct (truthy_string b).
Qed.

Lemma path_parameters_map (f : string → ParameterSpec) l :
  (∀ x, param_in (f x) = "path") →
  path_parameters (map f l) = map f l.
Proof.
  intros Hf. unfold path_parameters.
  induction l as [|x l IH]; [done|]. simpl.
  rewrite filter_cons_True by apply Hf. by rewrite IH.
Qed.

Lemma body_parameters_map {A} (f : A → ParameterSpec) l :
  (∀ x, param_in (f x) = "path") →
  body_parameters (map f l) = [].
Proof.
  intros Hf. unfold body_parameters.
  induction l as [|x l IH]; [done|]. simpl.
  rewrite filter_cons_False; [done|]. by rewrite Hf.
Qed.

Lemma path_parameters_declared (l : list (string * bool)) :
  path_parameters (map declared_parameter l) = map declared_parameter l.
Proof.
  unfold path_parameters.
  induction l as [|x l IH]; [done|]. simpl.
  rewrite filter_cons_True by done. by rewrite IH.
Qed.


Lemma remaining_NoDup rm keys pps :
  removes_name rm → NoDup pps →
  NoDup (fold_left rm keys pps)
  ∧ ∀ x, x ∈ fold_left rm keys pps → x ∈ pps ∧ x ∉ keys.
Proof.
  intros Hrm. revert pps. induction keys as [|k keys IH]; intros pps Hnd.
  - simpl. split; [done|]. intros x Hx. split; [done|]. by apply not_elem_of_nil.
  - simpl. destruct (Hrm pps k) as (Hsub & _ & Hstrike).
    destruct (Hstrike Hnd) as [Hnd' Hk].
    destruct (IH _ Hnd') as [Hnd'' Hin]. split; [done|].
    intros x Hx. destruct (Hin _ Hx) as [Hx' Hkeys]. split; [by apply Hsub|].
    intros [-> | ?]%elem_of_cons; done.
Qed.

Lemma body_parameters_body_part ev :
  body_parameters (body_part ev) = body_part ev.
Proof.
  unfold body_part.
  destruct (bodyType ev) as [b|]; [|done]. by destruct (truthy_string b).
Qed.

Lemma body_parameters_paths ev (l : list ParameterSpec) :
  body_parameters l = [] →
  body_parameters (body_part ev ++ l) = body_part ev.
Proof.
  intros Hl. unfold body_parameters in *.
  rewrite filter_app, Hl, app_nil_r. apply body_parameters_body_part.
Qed.

Lemma body_parameters_path_side rm ev :
  body_parameters
    match parameters_path ev with
    | None => map required_parameter (pathParameters_of (path ev))
    | Some decl =>
        map declared_parameter decl
          ++ map required_parameter
               (fold_left rm decl.*1 (pathParameters_of (path ev)))
    end = [].
Proof.
  destruct (parameters_path ev) as [decl|].
  - unfold body_parameters. rewrite filter_app.
    fold (body_parameters (map declared_parameter decl)).
    fold (body_parameters
            (map required_parameter
                 (fold_left rm decl.*1 (pathParameters_of (path ev))))).
    by rewrite !body_parameters_map.
  - by apply body_parameters_map.
Qed.

Lemma path_parameters_after_body ev names :
  path_parameters (body_part ev ++ map required_parameter names)
  = map required_parameter names.
Proof.
  unfold path_parameters. rewrite filter_app.
  fold (path_parameters (body_part ev)).
  rewrite path_parameters_body_part. simpl.
  by apply path_parameters_map.
Qed.

(** A template written as brace-free literal text and placeholders: one
    required path parameter per placeholder, in order. *)
Lemma rendered_template_parameters rm ev segs :
  parameters_path ev = None →
  path ev = render segs →
  forallb segment_ok segs = true →
  path_parameters (httpEventToParameters rm ev)
  = map required_parameter (segment_names segs).
Proof.
  intros Hdecl Hpath Hok.
  rewrite httpEventToParameters_shape, Hdecl, Hpath.
  rewrite (pathParameters_of_placeholders _ (render_no_stray_close _ Hok)).
  rewrite (render_placeholders _ Hok).
  apply path_parameters_after_body.
Qed.

(** C2 (as amended).  For an http event without [parameters.path]
    declaration whose path template has no stray closing brace, the
    parameters of kind path returned by [httpEventToParameters] are, from
    left to right, one [{name, in: "path", required: true, type: "string"}]
    per [{name}] placeholder of the template; with N placeholders there are
    exactly N of them, after the body parameter if there is one. *)
Theorem implicit_path_parameters rm ev :
  parameters_path ev = None →
  no_stray_close (path ev) = true →
  httpEventToParameters rm ev
  = body_part ev
      ++ map (fun name =>
                {| param_in := "path"; param_name := name;
                   param_description := None; param_required := true;
                   param_schema := None; param_type := Some "string" |})
             (placeholders_spec (path ev))
  ∧ path_parameters (httpEventToParameters rm ev)
    = map (fun name =>
             {| param_in := "path"; param_name := name;
                param_description := None; param_required := true;
                param_schema := None; param_type := Some "string" |})
          (placeholders_spec (path ev))
  ∧ param_name <$> path_parameters (httpEventToParameters rm ev)
    = placeholders_spec (path ev)
  ∧ ∀ N, length (placeholders_spec (path ev)) = N →
         length (path_parameters (httpEventToParameters rm ev)) = N.
Proof.
  intros Hdecl Hwf.
  rewrite httpEventToParameters_shape, Hdecl.
  rewrite (pathParameters_of_placeholders _ Hwf).
  pose proof (path_parameters_after_body ev (placeholders_spec (path ev)))
    as Hpath.
  split; [reflexivity|]. split; [exact Hpath|]. split.
  - rewrite Hpath. clear Hpath.
    induction (placeholders_spec (path ev)) as [|n l IH]; [done|].
    simpl. f_equal. exact IH.
  - intros N <-. by rewrite Hpath, length_map.
Qed.

Lemma implicit_path_parameters_witness :
  path_parameters
    (httpEventToParameters removeStringFromArray_spec
       (event_of "/shops/{shop}/items/{item}" "get"))
  = [ {| param_in := "path"; param_name := "shop";
         param_description := None; param_required := true;
         param_schema := None; param_type := Some "string" |};
      {| param_in := "path"; param_name := "item";
         param_description := None; param_required := true;
         param_schema := None; param_type := Some "string" |} ].
Proof.
  exact (proj1 (proj2 (implicit_path_parameters removeStringFromArray_spec
                         (event_of "/shops/{shop}/items/{item}" "get")
                         eq_refl eq_refl))).
Defined.

(** C2 as worded fails: a template with a closing brace that closes
    nothing has no placeholder, yet a path parameter is emitted. *)
Lemma implicit_path_parameters_stray :
  parameters_path (event_of "users/id}" "get") = None
  ∧ placeholders_spec (path (event_of "users/id}" "get")) = []
  ∧ path_parameters
      (httpEventToParameters removeStringFromArray_spec
         (event_of "users/id}" "get"))
    = [ {| param_in := "path"; param_name := "users/id";
           param_description := None; param_required := true;
           param_schema := None; param_type := Some "string" |} ].
Proof. repeat split. Qed.




(** C5 (as amended).  When [bodyType] is a non-empty string the first entry
    of the list is the body parameter
    [{in: "body", name: "body", description: "Body required in the request",
    required: true, schema: {$ref: "#/definitions/<bodyType>"}}] and no
    other entry is of kind body, however many path parameters follow; when
    [bodyType] is absent or is the empty string no body parameter is
    emitted. *)
Theorem body_parameter_first rm ev :
  (∀ b, bodyType ev = Some b → b ≠ "" →
     ∃ rest,
       httpEventToParameters rm ev
       = {| param_in := "body";
            param_name := "body";
            param_description := Some "Body required in the request";
            param_required := true;
            param_schema := Some {| ref := "#/definitions/" +:+ b |};
            param_type := None |} :: rest
       ∧ body_parameters rest = []
       ∧ Forall (fun p => param_in p = "path") rest)
  ∧ (bodyType ev = None ∨ bodyType ev = Some "" →
     body_parameters (httpEventToParameters rm ev) = []
     ∧ Forall (fun p => param_in p = "path") (httpEventToParameters rm ev)).
Proof.
  rewrite httpEventToParameters_shape.
  pose proof (body_parameters_path_side rm ev) as Hside.
  assert (Forall (fun p => param_in p = "path")
            match parameters_path ev with
            | None => map required_parameter (pathParameters_of (path ev))
            | Some decl =>
                map declared_parameter decl
                  ++ map required_parameter
                       (fold_left rm decl.*1 (pathParameters_of (path ev)))
            end) as Hpaths.
  { destruct (parameters_path ev) as [decl|]; [apply Forall_app; split|];
      apply Forall_forall; intros p Hp;
      by apply list_elem_of_In, in_map_iff in Hp as (x & <- & _). }
  split.
  - intros b Hb Hne. eexists. split; [|split; [exact Hside | exact Hpaths]].
    unfold body_part. rewrite Hb. by destruct b.
  - intros Hb. split.
    + rewrite (body_parameters_paths _ _ Hside).
      unfold body_part. by destruct Hb as [-> | ->].
    + unfold body_part. by destruct Hb as [-> | ->].
Qed.

Lemma body_parameter_first_witness :
  (∃ rest,
     httpEventToParameters removeStringFromArray_spec
       (with_bodyType "Order" (event_of "orders/{id}/lines/{line}" "put"))
     = {| param_in := "body";
          param_name := "body";
          param_description := Some "Body required in the request";
          param_required := true;
          param_schema := Some {| ref := "#/definitions/Order" |};
          param_type := None |} :: rest
     ∧ body_parameters rest = []
     ∧ Forall (fun p => param_in p = "path") rest)
  ∧ body_parameters
      (httpEventToParameters removeStringFromArray_spec
         (event_of "orders/{id}" "get")) = [].
Proof.
  split.
  - apply (proj1 (body_parameter_first removeStringFromArray_spec
                    (with_bodyType "Order"
                       (event_of "orders/{id}/lines/{line}" "put")))
             "Order"); [reflexivity | discriminate].
  - apply (proj2 (body_parameter_first removeStringFromArray_spec
                    (event_of "orders/{id}" "get"))).
    left. reflexivity.
Defined.

(** C5 as worded fails: an event that declares the empty string as
    [bodyType] gets no body parameter. *)
Lemma body_parameter_empty_bodyType :
  bodyType (with_bodyType "" (event_of "orders/{id}" "post")) = Some ""
  ∧ httpEventToParameters removeStringFromArray_spec
      (with_bodyType "" (event_of "orders/{id}" "post"))
    = [ {| param_in := "path"; param_name := "id";
           param_description := None; param_required := true;
           param_schema := None; param_type := Some "string" |} ]
  ∧ head (httpEventToParameters removeStringFromArray_spec
            (with_bodyType "" (event_of "orders/{id}" "post")))
    ≠ Some {| param_in := "body";
              param_name := "body";
              param_description := Some "Body required in the request";
              param_required := true;
              param_schema := Some {| ref := "#/definitions/" |};
              param_type := None |}.
Proof. repeat split. discriminate. Qed.

(** C9 (as amended).  The list returned by [httpEventToParameters] holds at
    most one parameter of kind body.  Its parameters of kind path are
    pairwise distinct by name when the names extracted from the template
    are pairwise distinct; a name that occurs both in the template and in
    the [parameters.path] declaration is then emitted once. *)
Theorem parameters_distinct rm ev :
  (length (body_parameters (httpEventToParameters rm ev)) ≤ 1)%nat
  ∧ (removes_name rm →
     NoDup (pathParameters_of (path ev)) →
     NoDup (declared_names ev) →
     NoDup (param_name <$> path_parameters (httpEventToParameters rm ev))).
Proof.
  rewrite httpEventToParameters_shape. split.
  - rewrite (body_parameters_paths _ _ (body_parameters_path_side rm ev)).
    unfold body_part. destruct (bodyType ev) as [b|]; [|simpl; lia].
    destruct (truthy_string b); simpl; lia.
  - intros Hrm Htemplate Hdecl.
    unfold path_parameters. rewrite filter_app.
    fold (path_parameters (body_part ev)).
    rewrite path_parameters_body_part. simpl.
    unfold declared_names in Hdecl.
    destruct (parameters_path ev) as [decl|].
    + rewrite filter_app.
      fold (path_parameters (map declared_parameter decl)).
      fold (path_parameters
              (map required_parameter
                   (fold_left rm decl.*1 (pathParameters_of (path ev))))).
      rewrite path_parameters_declared, path_parameters_map by done.
      rewrite fmap_app. change (@fmap list _) with (@map) in *.
      rewrite !map_map. simpl.
      destruct (remaining_NoDup rm decl.*1 _ Hrm Htemplate) as [Hnd Hin].
      rewrite map_id. apply NoDup_app. repeat split.
      * done.
      * intros x Hx Hx'. by apply Hin in Hx' as [_ Hx'].
      * done.
    + fold (path_parameters
              (map required_parameter (pathParameters_of (path ev)))).
      rewrite path_parameters_map by done.
      change (@fmap list _) with (@map). rewrite map_map. simpl.
      by rewrite map_id.
Qed.

Lemma parameters_distinct_witness :
  NoDup
    (param_name
       <$> path_parameters
             (httpEventToParameters removeStringFromArray_spec
                (with_parameters [("id", false)]
                   (event_of "users/{id}/posts/{post}" "get")))).
Proof.
  apply (proj2 (parameters_distinct removeStringFromArray_spec
                  (with_parameters [("id", false)]
                     (event_of "users/{id}/posts/{post}" "get")))).
  - exact removeStringFromArray_spec_removes.
  - apply (bool_decide_unpack _). vm_compute. exact I.
  - apply (bool_decide_unpack _). vm_compute. exact I.
Defined.

(** C9 as worded fails: a template that repeats a placeholder yields two
    path parameters of the same name. *)
Lemma parameters_repeated_placeholder :
  ¬ NoDup
      (param_name
         <$> path_parameters
               (httpEventToParameters removeStringFromArray_spec
                  (event_of "copy/{id}/to/{id}" "post"))).
Proof.
  change (¬ NoDup ["id"; "id"]).
  intros H. apply NoDup_cons in H as [H _]. apply H. by left.
Qed.

(** ** The response formatter *)

Lemma format_fold_other entries formatted statusCode :
  statusCode ∉ entries.*1 →
  fold_left format_step entries formatted !! statusCode = formatted !! statusCode.
Proof.
  revert formatted. induction entries as [|[c d] entries IH]; intros formatted Hc.
  - done.
  - simpl. rewrite IH.
    + apply lookup_insert_ne. intros ->. apply Hc. by left.
    + intros Hin. apply Hc. by right.
Qed.

Lemma format_fold_entry entries formatted statusCode details :
  NoDup entries.*1 →
  (statusCode, details) ∈ entries →
  fold_left format_step entries formatted !! statusCode
  = Some (format_entry statusCode details).
Proof.
  revert formatted. induction entries as [|[c d] entries IH];
    intros formatted Hnd Hin.
  - by apply elem_of_nil in Hin.
  - simpl in *. apply NoDup_cons in Hnd as [Hc Hnd].
    apply elem_of_cons in Hin as [[= -> ->] | Hin].
    + rewrite format_fold_other by done. apply lookup_insert_eq.
    + by apply IH.
Qed.

Lemma format_fold_dom entries formatted :
  dom (fold_left format_step entries formatted)
  = list_to_set entries.*1 ∪ dom formatted.
Proof.
  revert formatted. induction entries as [|[c d] entries IH]; intros formatted.
  - simpl. set_solver.
  - simpl. rewrite IH, dom_insert_L. set_solver.
Qed.

(** C4 (as amended).  [formatResponses] applied to an absent declaration
    returns exactly [{200: {description: "200 response"}}].  Applied to a
    declared map it returns one entry per declared status code: a string
    value [s] gives [{description: s}]; an object value gives the declared
    description, or ["<statusCode> response"] when the description is absent
    or empty, and the schema [{$ref: "#/definitions/<name>"}] exactly when
    [bodyType] is a non-empty name. *)
Theorem formatResponses_entries :
  formatResponses None
  = {[ "200" := {| resp_description := "200 response"; resp_schema := None |} ]}
  ∧ ∀ entries,
      NoDup entries.*1 →
      dom (formatResponses (Some entries)) = list_to_set entries.*1
      ∧ size (formatResponses (Some entries)) = length entries
      ∧ ∀ statusCode details,
          (statusCode, details) ∈ entries →
          ∃ r,
            formatResponses (Some entries) !! statusCode = Some r
            ∧ match details with
              | ResponseString s =>
                  r = {| resp_description := s; resp_schema := None |}
              | ResponseObject d b =>
                  (d = None ∨ d = Some "" →
                   resp_description r = statusCode +:+ " response")
                  ∧ (∀ s, d = Some s → s ≠ "" → resp_description r = s)
                  ∧ (∀ name, b = Some name → name ≠ "" →
                     resp_schema r = Some {| ref := "#/definitions/" +:+ name |})
                  ∧ (b = None ∨ b = Some "" → resp_schema r = None)
              end.
Proof.
  split; [done|]. intros entries Hnd. unfold formatResponses.
  assert (dom (fold_left format_step entries ∅)
          = (list_to_set entries.*1 : gset string)) as Hdom.
  { rewrite format_fold_dom, dom_empty_L. by rewrite (right_id_L ∅ (∪)). }
  split; [done|]. split.
  - rewrite <- size_dom, Hdom, size_list_to_set by done. apply length_fmap.
  - intros statusCode details Hin. eexists.
    split; [by apply format_fold_entry|].
    destruct details as [s | d b]; [done|]. simpl. repeat split.
    + by intros [-> | ->].
    + intros s -> Hs. by destruct s.
    + intros name -> Hname. by destruct name.
    + by intros [-> | ->].
Qed.

Lemma formatResponses_entries_witness :
  size (formatResponses
          (Some [("201", ResponseString "Created");
                 ("200", ResponseObject None (Some "User"))])) = 2
  ∧ ∃ r,
      formatResponses
        (Some [("201", ResponseString "Created");
               ("200", ResponseObject None (Some "User"))]) !! "200" = Some r
      ∧ resp_description r = "200 response"
      ∧ resp_schema r = Some {| ref := "#/definitions/User" |}.
Proof.
  assert (NoDup ["201"; "200"]) as Hnd.
  { apply (bool_decide_unpack _). vm_compute. exact I. }
  destruct (proj2 formatResponses_entries
              [("201", ResponseString "Created");
               ("200", ResponseObject None (Some "User"))] Hnd)
    as (_ & Hsize & Hentries).
  split; [exact Hsize|].
  destruct (Hentries "200" (ResponseObject None (Some "User")))
    as (r & Hr & Hdesc & _ & Hschema & _).
  { apply elem_of_cons. right. apply elem_of_cons. by left. }
  exists r. split; [exact Hr|]. split.
  - apply Hdesc. by left.
  - apply (Hschema "User"); [reflexivity | discriminate].
Defined.

(** C4 as worded fails: a declared response whose [bodyType] is the empty
    string carries a [bodyType], yet no schema is attached. *)
Lemma formatResponses_empty_bodyType :
  formatResponses (Some [("200", ResponseObject None (Some ""))]) !! "200"
  = Some {| resp_description := "200 response"; resp_schema := None |}.
Proof. unfold formatResponses. simpl. apply lookup_insert_eq. Qed.

(** ** Path synthesis *)

Lemma normalize_path_slash t : ∃ s, normalize_path t = String "/" s.
Proof.
  destruct t as [|c t]; [by eexists|].
  destruct (Ascii.eqb_spec c "/") as [-> | Hc]; [by eexists|].
  exists (String c t). unfold normalize_path.
  destruct c as [[] [] [] [] [] [] [] []]; done.
Qed.

Lemma normalize_path_cases t :
  ((∃ s, t = String "/" s) → normalize_path t = t)
  ∧ ((∀ s, t ≠ String "/" s) → normalize_path t = "/" +:+ t).
Proof.
  split.
  - by intros [s ->].
  - intros Hne. destruct t as [|c t]; [done|].
    destruct (Ascii.eqb_spec c "/") as [-> | Hc]; [by destruct (Hne t)|].
    unfold normalize_path. destruct c as [[] [] [] [] [] [] [] []]; done.
Qed.

(** An event contributes through the route it declares, if any. *)
Lemma add_event_route rm name paths e :
  add_event rm name paths e
  = match route_of name e with
    | Some route => add_route rm paths route
    | None => paths
    end.
Proof.
  unfold add_event, route_of.
  destruct (selected_trigger e) as [[s | h]|]; done.
Qed.

Lemma route_of_filtered name e :
  is_http_event e = false → route_of name e = None.
Proof.
  unfold is_http_event, route_of.
  destruct (selected_trigger e) as [[s | h]|]; done.
Qed.

Lemma add_events_routes rm name es paths :
  fold_left (add_event rm name) (filter (fun e => is_http_event e = true) es) paths
  = fold_left (add_route rm) (omap (route_of name) es) paths.
Proof.
  revert paths. induction es as [|e es IH]; intros paths; [done|].
  destruct (is_http_event e) eqn:He.
  - rewrite filter_cons_True by done. simpl.
    rewrite add_event_route.
    destruct (route_of name e); simpl; apply IH.
  - rewrite filter_cons_False by (by rewrite He). simpl.
    rewrite route_of_filtered by done. apply IH.
Qed.

Lemma synthesize_paths_routes_from rm functions paths :
  fold_left (add_function rm) functions paths
  = fold_left (add_route rm) (routes functions) paths.
Proof.
  revert paths. induction functions as [|[name config] functions IH];
    intros paths; [done|].
  unfold routes in *. simpl. rewrite fold_left_app, <- IH.
  f_equal. apply add_events_routes.
Qed.

Lemma synthesize_paths_routes rm functions :
  synthesize_paths rm functions
  = fold_left (add_route rm) (routes functions) ∅.
Proof. apply synthesize_paths_routes_from. Qed.

Lemma operation_at_add_route rm paths route p m :
  operation_at p m (add_route rm paths route)
  = if decide (declares p m route)
    then Some (operation_of rm route.1 route.2)
    else operation_at p m paths.
Proof.
  unfold operation_at, add_route, declares.
  destruct (decide (normalize_path (path route.2) = p)) as [<- | Hp].
  - rewrite lookup_insert_eq. simpl.
    destruct (decide (method route.2 = m)) as [<- | Hm].
    + rewrite decide_True by done. apply lookup_insert_eq.
    + rewrite decide_False by tauto. rewrite lookup_insert_ne by done.
      by destruct (paths !! normalize_path (path route.2)).
  - rewrite decide_False by tauto. by rewrite lookup_insert_ne.
Qed.

Lemma operation_at_routes rm rs paths p m :
  operation_at p m (fold_left (add_route rm) rs paths)
  = match last_route p m rs with
    | Some route => Some (operation_of rm route.1 route.2)
    | None => operation_at p m paths
    end.
Proof.
  unfold last_route. induction rs as [|route rs IH] using rev_ind; [done|].
  rewrite fold_left_app, filter_app. cbn [fold_left].
  rewrite operation_at_add_route.
  destruct (decide (declares p m route)) as [Hd | Hd].
  - rewrite filter_cons_True, filter_nil by done. by rewrite last_snoc.
  - rewrite filter_cons_False, filter_nil by done. by rewrite app_nil_r.
Qed.

Lemma paths_keys_routes rm rs paths p :
  is_Some (fold_left (add_route rm) rs paths !! p)
  ↔ is_Some (paths !! p)
    ∨ ∃ route, route ∈ rs ∧ normalize_path (path route.2) = p.
Proof.
  revert paths. induction rs as [|route rs IH]; intros paths; simpl.
  - split; [by left|]. intros [? | (r & Hr & _)]; [done|].
    by apply elem_of_nil in Hr.
  - rewrite IH. unfold add_route.
    destruct (decide (normalize_path (path route.2) = p)) as [Hp | Hp].
    + rewrite Hp, lookup_insert_eq. split; [|by eauto].
      intros _. right. exists route. split; [by left | done].
    + rewrite lookup_insert_ne by done. split.
      * intros [? | (r & Hr & Hrp)]; [by left|].
        right. exists r. split; [by right | done].
      * intros [? | (r & Hr & Hrp)]; [by left|].
        apply elem_of_cons in Hr as [-> | Hr]; [done|]. right. eauto.
Qed.

Lemma generatePaths_paths rm this :
  paths (this_swagger (generatePaths rm this))
  = fold_left (add_route rm) (routes (functions (serverless_service this))) ∅.
Proof. apply synthesize_paths_routes. Qed.

Lemma generatePaths_operation_at rm this p m :
  operation_at p m (paths (this_swagger (generatePaths rm this)))
  = (fun route => operation_of rm route.1 route.2)
      <$> last_route p m (routes (functions (serverless_service this))).
Proof.
  rewrite generatePaths_paths, operation_at_routes.
  by destruct (last_route p m _).
Qed.

(** C1 (as amended).  The paths map assigned by [generatePaths] has one key
    per normalized path template of a route, the template itself when it
    starts with ['/'] and the template with ['/'] put in front otherwise.
    Under a path the operation objects are keyed by the HTTP method exactly
    as the route declares it, without case normalization, and the operation
    stored for a path and a method is the one of the last processed route
    that declares this pair. *)
Theorem generatePaths_grouping rm this :
  let fs := functions (serverless_service this) in
  let doc := this_swagger (generatePaths rm this) in
  (∀ p, is_Some (paths doc !! p)
        ↔ ∃ route, route ∈ routes fs ∧ normalize_path (path route.2) = p)
  ∧ (∀ t, ((∃ s, t = String "/" s) → normalize_path t = t)
          ∧ ((∀ s, t ≠ String "/" s) → normalize_path t = "/" +:+ t))
  ∧ (∀ p m, operation_at p m (paths doc)
            = (fun route => operation_of rm route.1 route.2)
                <$> last_route p m (routes fs)).
Proof.
  intros fs doc. split; [|split].
  - intros p. unfold doc. rewrite generatePaths_paths, paths_keys_routes.
    rewrite lookup_empty. split; [|by right].
    intros [[? [=]] | H]; done.
  - apply normalize_path_cases.
  - apply generatePaths_operation_at.
Qed.

Lemma generatePaths_grouping_witness :
  operation_at "/users/{id}" "get"
    (paths (this_swagger
       (generatePaths removeStringFromArray_spec
          (plugin_of "api" None
             [("getUser", function_of [http_event (event_of "users/{id}" "get")]);
              ("readUser",
               function_of [http_event (event_of "/users/{id}" "get")])]))))
  = Some (operation_of removeStringFromArray_spec "readUser"
            (event_of "/users/{id}" "get")).
Proof.
  exact (proj2 (proj2 (generatePaths_grouping removeStringFromArray_spec
           (plugin_of "api" None
              [("getUser", function_of [http_event (event_of "users/{id}" "get")]);
               ("readUser",
                function_of [http_event (event_of "/users/{id}" "get")])])))
           "/users/{id}" "get").
Defined.

(** C1 as worded fails: a method declared in upper case is the key as it
    stands, and nothing is stored under its lower-case form. *)
Lemma generatePaths_method_verbatim :
  operation_at "/users" (to_lower "GET")
    (paths (this_swagger
       (generatePaths removeStringFromArray_spec
          (plugin_of "api" None
             [("listUsers", function_of [http_event (event_of "users" "GET")])]))))
  = None
  ∧ operation_at "/users" "GET"
      (paths (this_swagger
         (generatePaths removeStringFromArray_spec
            (plugin_of "api" None
               [("listUsers",
                 function_of [http_event (event_of "users" "GET")])]))))
    = Some (operation_of removeStringFromArray_spec "listUsers"
              (event_of "users" "GET")).
Proof. split; by rewrite generatePaths_operation_at. Qed.

Lemma routes_app fs1 fs2 : routes (fs1 ++ fs2) = routes fs1 ++ routes fs2.
Proof. unfold routes. apply flat_map_app. Qed.

Lemma route_of_shorthand name e : shorthand_route e → route_of name e = None.
Proof.
  unfold shorthand_route, route_of, selected_trigger.
  destruct (http e) as [[s | h]|], (httpApi e) as [[s' | h']|];
    try done; by destruct s.
Qed.

(** C8.  An event whose trigger is declared in the shorthand string form
    adds no operation object, and the paths map assigned by [generatePaths]
    is the one obtained when the event is left out of its function. *)
Theorem shorthand_skipped rm this before name es1 e es2 after :
  shorthand_route e →
  (∀ ps, add_event rm name ps e = ps)
  ∧ paths (this_swagger
      (generatePaths rm
         (with_functions this
            (before ++ (name, function_of (es1 ++ e :: es2)) :: after))))
    = paths (this_swagger
        (generatePaths rm
           (with_functions this
              (before ++ (name, function_of (es1 ++ es2)) :: after)))).
Proof.
  intros Hs. pose proof (route_of_shorthand name e Hs) as Hroute. split.
  - intros ps. by rewrite add_event_route, Hroute.
  - rewrite !generatePaths_paths. simpl. f_equal.
    rewrite !routes_app. f_equal.
    unfold routes. simpl. f_equal.
    rewrite !omap_app. simpl. by rewrite Hroute.
Qed.

Lemma shorthand_skipped_witness :
  paths (this_swagger
    (generatePaths removeStringFromArray_spec
       (with_functions (plugin_of "api" None [])
          ([] ++ ("users",
                  function_of
                    ([http_event (event_of "users" "get")]
                       ++ shorthand_event "POST users"
                       :: [http_event (event_of "users/{id}" "get")]))
              :: []))))
  = paths (this_swagger
      (generatePaths removeStringFromArray_spec
         (with_functions (plugin_of "api" None [])
            ([] ++ ("users",
                    function_of
                      ([http_event (event_of "users" "get")]
                         ++ [http_event (event_of "users/{id}" "get")]))
                :: [])))).
Proof.
  exact (proj2 (shorthand_skipped removeStringFromArray_spec
                  (plugin_of "api" None []) [] "users"
                  [http_event (event_of "users" "get")]
                  (shorthand_event "POST users")
                  [http_event (event_of "users/{id}" "get")] [] I)).
Defined.

(** ** The document *)

Lemma gatherTypes_frame host this :
  swagger (this_swagger (gatherTypes host this)) = swagger (this_swagger this)
  ∧ info (this_swagger (gatherTypes host this)) = info (this_swagger this)
  ∧ schemes (this_swagger (gatherTypes host this)) = schemes (this_swagger this)
  ∧ paths (this_swagger (gatherTypes host this)) = paths (this_swagger this)
  ∧ serverless_service (gatherTypes host this) = serverless_service this.
Proof.
  unfold gatherTypes.
  by destruct (merge_sources _ _ _ _) as [out [combined|]].
Qed.

(** C10.  [generatePaths] assigns the [paths] field only: the version
    marker, the info block, the schemes and the definitions of the document
    are after the call what they were before it, and so is the service the
    plugin reads.  On the document the class starts with, after
    [beforeGather] and [gatherTypes], they are ['2.0'], the service name
    with version ['1'], [['https']] and the definitions [gatherTypes] left. *)
Theorem generatePaths_frame rm this :
  swagger (this_swagger (generatePaths rm this)) = swagger (this_swagger this)
  ∧ info (this_swagger (generatePaths rm this)) = info (this_swagger this)
  ∧ schemes (this_swagger (generatePaths rm this)) = schemes (this_swagger this)
  ∧ definitions (this_swagger (generatePaths rm this))
    = definitions (this_swagger this)
  ∧ serverless_service (generatePaths rm this) = serverless_service this
  ∧ ∀ host name files fs,
      let gathered := gatherTypes host (beforeGather (plugin_of name files fs)) in
      let doc := this_swagger (generatePaths rm gathered) in
      swagger doc = "2.0"
      ∧ info doc = {| title := name; version := "1" |}
      ∧ schemes doc = ["https"]
      ∧ definitions doc = definitions (this_swagger gathered).
Proof.
  repeat split; simpl.
  - by rewrite (proj1 (gatherTypes_frame _ _)).
  - by rewrite (proj1 (proj2 (gatherTypes_frame _ _))).
  - by rewrite (proj1 (proj2 (proj2 (gatherTypes_frame _ _)))).
Qed.

(** ** The type schema resolver *)

Lemma spread_lookup combined definition name :
  spread combined definition !! name
  = match definition !! name with
    | Some d => Some d
    | None => combined !! name
    end.
Proof.
  unfold spread. rewrite lookup_union.
  by destruct (definition !! name), (combined !! name).
Qed.

Lemma fold_spread_lookup maps combined name :
  fold_left spread maps combined !! name
  = match last_defined name maps with
    | Some d => Some d
    | None => combined !! name
    end.
Proof.
  revert combined. induction maps as [|m maps IH]; intros combined; [done|].
  simpl. rewrite IH, spread_lookup.
  by destruct (last_defined name maps).
Qed.

(** When every source converts, the callbacks merge their schema maps in
    the order in which they complete. *)
Lemma merge_sources_complete host order maps combined out :
  Forall2 (fun filepath m => source_schemas host filepath = Some m) order maps →
  ∃ out',
    merge_sources host order combined out
    = (out', Some (fold_left spread maps combined)).
Proof.
  intros Hall. revert combined out.
  induction Hall as [|filepath m order maps Hm _ IH]; intros combined out.
  - by eexists.
  - simpl. unfold source_schemas in Hm.
    destruct (convert_source host filepath) as [[anyOf definition]|];
      [|done].
    injection Hm as ->. apply IH.
Qed.

(** When a source fails, [Promise.all] rejects. *)
Lemma merge_sources_rejected host order filepath combined out :
  filepath ∈ order →
  convert_source host filepath = None →
  ∃ out', merge_sources host order combined out = (out ++ out', None).
Proof.
  intros Hin Hfail. revert combined out.
  induction order as [|f order IH]; intros combined out.
  - by apply elem_of_nil in Hin.
  - simpl. destruct (convert_source host f) as [[anyOf definition]|] eqn:Hf.
    + apply elem_of_cons in Hin as [-> | Hin]; [congruence|].
      destruct (IH Hin (spread combined definition)
                  (if anyOf then out ++ [ConsoleLog "includes anyOf"] else out))
        as [out' ->].
      destruct anyOf; [|by eexists].
      rewrite <- app_assoc. by eexists.
    + exists []. by rewrite app_nil_r.
Qed.

(** C6 (as amended).  When a source of the list cannot be read or
    converted, or its output has no schemas to read, the failure is printed
    and [gatherTypes] returns, but [swagger.definitions] is not assigned:
    the document is left as it was before the call, without the definitions
    of the sources that did convert.  Path generation then runs as it
    would have without the call. *)
Theorem gatherTypes_failure host this filepath :
  settle_order host (typesFile this) ≡ₚ typesFile this →
  filepath ∈ typesFile this →
  convert_source host filepath = None →
  this_swagger (gatherTypes host this) = this_swagger this
  ∧ serverless_service (gatherTypes host this) = serverless_service this
  ∧ (∃ out,
       printed (gatherTypes host this)
       = printed this ++ out ++ [ConsoleLog "error getting types"])
  ∧ ∀ rm,
      this_swagger (generatePaths rm (gatherTypes host this))
      = this_swagger (generatePaths rm this).
Proof.
  intros Hperm Hin Hfail.
  assert (filepath ∈ settle_order host (typesFile this)) as Hin'.
  { eapply elem_of_Permutation_proper; [exact Hperm | exact Hin]. }
  unfold gatherTypes.
  destruct (merge_sources_rejected host _ filepath ∅
              (printed this
                 ++ [CliLog "this is where we gather the types into a single file"])
              Hin' Hfail) as [out' ->].
  split; [reflexivity|]. split; [reflexivity|]. split.
  - exists ([CliLog "this is where we gather the types into a single file"]
             ++ out').
    cbn [printed]. by rewrite <- !app_assoc.
  - intros rm. reflexivity.
Qed.

Lemma gatherTypes_failure_witness :
  this_swagger
    (gatherTypes (sample_host id)
       (plugin_of "api" (Some ["missing.d.ts"; "two.d.ts"]) []))
  = initial_swagger.
Proof.
  refine (proj1 (gatherTypes_failure (sample_host id)
                   (plugin_of "api" (Some ["missing.d.ts"; "two.d.ts"]) [])
                   "missing.d.ts" _ _ eq_refl)).
  - reflexivity.
  - apply elem_of_cons. by left.
Defined.

(** C6 as worded fails: the second source converts and defines [Widget],
    the first one cannot be read, and the document gets no definitions. *)
Lemma gatherTypes_drops_converted :
  source_schemas (sample_host id) "missing.d.ts" = None
  ∧ source_schemas (sample_host id) "two.d.ts"
    = Some {[ "Widget" := widget_two; "Gadget" := JNull ]}
  ∧ definitions
      (this_swagger
         (gatherTypes (sample_host id)
            (plugin_of "api" (Some ["missing.d.ts"; "two.d.ts"]) [])))
    = None.
Proof. repeat split. Qed.

Lemma last_defined_later name earlier (m : gmap string Json) later d :
  m !! name = Some d →
  Forall (fun m' : gmap string Json => m' !! name = None) later →
  last_defined name (earlier ++ m :: later) = Some d.
Proof.
  intros Hm Hlater.
  assert (last_defined name later = None) as Hnone.
  { induction Hlater as [|m' later Hm' _ IH]; [done|]. simpl. by rewrite IH. }
  induction earlier as [|e earlier IH]; simpl.
  - by rewrite Hnone.
  - by rewrite IH.
Qed.

(** C7.  With the conversions completing in the order of the list, as
    those of the converter do, and every source converting,
    [swagger.definitions] is a single map that binds a name at most once,
    and a name that several sources define is bound to the definition of
    the source that comes last in the list among them: two sources that
    define [Widget] yield one [Widget] entry, the second source's. *)
Theorem gatherTypes_last_wins host this maps :
  settle_order host (typesFile this) = typesFile this →
  Forall2 (fun filepath m => source_schemas host filepath = Some m)
          (typesFile this) maps →
  ∃ merged,
    definitions (this_swagger (gatherTypes host this)) = Some merged
    ∧ (∀ name, merged !! name = last_defined name maps)
    ∧ (∀ earlier m later name d,
         maps = earlier ++ m :: later →
         m !! name = Some d →
         Forall (fun m' : gmap string Json => m' !! name = None) later →
         merged !! name = Some d)
    ∧ (∀ first second name d,
         maps = [first; second] →
         second !! name = Some d →
         merged !! name = Some d).
Proof.
  intros Horder Hall. unfold gatherTypes. rewrite Horder.
  destruct (merge_sources_complete host _ maps ∅
              (printed this
                 ++ [CliLog "this is where we gather the types into a single file"])
              Hall) as [out' ->].
  eexists. split; [reflexivity|].
  assert (∀ name, fold_left spread maps ∅ !! name = last_defined name maps)
    as Hlast.
  { intros name. rewrite fold_spread_lookup, lookup_empty.
    by destruct (last_defined name maps). }
  split; [exact Hlast|]. split.
  - intros earlier m later name d -> Hm Hlater.
    rewrite Hlast. by apply last_defined_later.
  - intros first second name d -> Hsecond.
    rewrite Hlast. by apply (last_defined_later name [first] second []).
Qed.

Lemma gatherTypes_last_wins_witness :
  ∃ merged,
    definitions
      (this_swagger
         (gatherTypes (sample_host id)
            (plugin_of "api" (Some ["one.d.ts"; "two.d.ts"]) [])))
    = Some merged
    ∧ merged !! "Widget" = Some widget_two.
Proof.
  destruct (gatherTypes_last_wins (sample_host id)
              (plugin_of "api" (Some ["one.d.ts"; "two.d.ts"]) [])
              [ {[ "Widget" := widget_one ]};
                {[ "Widget" := widget_two; "Gadget" := JNull ]} ])
    as (merged & Hdef & _ & _ & Hsecond).
  - reflexivity.
  - repeat constructor.
  - exists merged. split; [exact Hdef|].
    apply (Hsecond {[ "Widget" := widget_one ]}
             {[ "Widget" := widget_two; "Gadget" := JNull ]});
      [reflexivity | apply lookup_insert_eq].
Defined.

(** * Further properties *)

(** ** The names the pattern extracts *)

Lemma brace_free_snoc acc c :
  brace_free acc = true → is_brace c = false →
  brace_free (acc +:+ String c EmptyString) = true.
Proof.
  intros Hacc Hc. induction acc as [|a acc IH].
  - simpl. by rewrite Hc.
  - simpl in Hacc. apply andb_prop in Hacc as [Ha Hacc].
    change (negb (is_brace a) && brace_free (acc +:+ String c EmptyString)
            = true).
    by rewrite Ha, IH.
Qed.

Lemma closed_runs_wellformed o acc s :
  brace_free acc = true →
  Forall (fun run => truthy_string run.2 = true ∧ brace_free run.2 = true)
         (closed_runs o acc s).
Proof.
  revert o acc. induction s as [|c s IH]; intros o acc Hacc; [constructor|].
  cbn [closed_runs].
  destruct (Ascii.eqb_spec c "}") as [-> | Hclose].
  - apply Forall_app. split; [|by apply IH].
    destruct (truthy_string acc) eqn:Ht; by repeat constructor.
  - destruct (Ascii.eqb_spec c "{") as [-> | Hopen]; [by apply IH|].
    apply IH, brace_free_snoc; [done|].
    unfold is_brace. apply orb_false_intro; by apply Ascii.eqb_neq.
Qed.

(** Every name that [path.match(/[^{\}]+(?=})/g)] returns is non-empty and
    holds neither an opening nor a closing brace. *)
Theorem extracted_names_wellformed path :
  Forall (fun name => name ≠ "" ∧ brace_free name = true)
         (pathParameters_of path).
Proof.
  rewrite pathParameters_of_match, (match_from_closed_runs _ false).
  pose proof (closed_runs_wellformed false EmptyString path eq_refl) as Hruns.
  induction Hruns as [|[o name] runs [Ht Hfree] _ IH]; [constructor|].
  simpl in *. constructor; [|done]. split; [|done]. by destruct name.
Qed.

(** A template written as brace-free literal text and placeholders with
    non-empty brace-free names gives back, through the pattern, the names
    it was written with, in order. *)
Theorem rendered_template_extraction segs :
  forallb segment_ok segs = true →
  pathParameters_of (render segs) = segment_names segs.
Proof.
  intros Hok.
  rewrite pathParameters_of_match, (match_from_closed_runs _ false).
  rewrite closed_runs_render by done.
  induction (segment_names segs) as [|n l IH]; [done|]. simpl. by f_equal.
Qed.

Lemma rendered_template_extraction_witness :
  pathParameters_of
    (render [Literal "/shops/"; Placeholder "shop"; Literal "/items/";
             Placeholder "item"])
  = ["shop"; "item"].
Proof.
  exact (rendered_template_extraction
           [Literal "/shops/"; Placeholder "shop"; Literal "/items/";
            Placeholder "item"] eq_refl).
Defined.

Lemma includes_close_cons c s :
  includes "}" (String c s) = false →
  (c =? "}")%char = false ∧ includes "}" s = false.
Proof.
  cbn [includes]. intros H. apply orb_false_elim in H as [Hp Hs].
  split; [|done]. destruct (Ascii.eqb_spec c "}") as [-> | Hne]; [|done].
  simpl in Hp. by destruct s.
Qed.

Lemma closed_runs_no_close o acc s :
  includes "}" s = false → closed_runs o acc s = [].
Proof.
  revert o acc. induction s as [|c s IH]; intros o acc Hs; [done|].
  apply includes_close_cons in Hs as [Hc Hs].
  cbn [closed_runs]. rewrite Hc. destruct (c =? "{")%char; by apply IH.
Qed.

(** An event without [parameters.path] declaration whose path holds no
    closing brace gets no path parameter: the list returned is the body
    parameter alone, or the empty list when there is no body type. *)
Theorem no_closing_brace_no_path_parameter rm ev :
  parameters_path ev = None →
  includes "}" (path ev) = false →
  httpEventToParameters rm ev = body_part ev
  ∧ match_pathParameters (path ev) = None.
Proof.
  intros Hdecl Hpath.
  assert (match_from 0 (path ev) = []) as Hnone.
  { rewrite (match_from_closed_runs _ false).
    by rewrite closed_runs_no_close. }
  split.
  - rewrite httpEventToParameters_shape, Hdecl, pathParameters_of_match, Hnone.
    apply app_nil_r.
  - unfold match_pathParameters. by rewrite Hnone.
Qed.

Lemma no_closing_brace_no_path_parameter_witness :
  httpEventToParameters removeStringFromArray_spec
    (with_bodyType "Order" (event_of "/orders/{open" "post"))
  = [bodyParameter "Order"].
Proof.
  exact (proj1 (no_closing_brace_no_path_parameter removeStringFromArray_spec
                  (with_bodyType "Order" (event_of "/orders/{open" "post"))
                  eq_refl eq_refl)).
Defined.

Lemma filter_fst_all (runs : list (bool * string)) :
  map snd (List.filter fst runs) = map snd runs → forallb fst runs = true.
Proof.
  induction runs as [|[o name] runs IH]; [done|]. simpl.
  destruct o; simpl.
  - intros [= H]. auto.
  - intros H. apply (f_equal (@length string)) in H.
    simpl in H. rewrite !length_map in H.
    pose proof (List.filter_length_le fst runs). lia.
Qed.

(** The names of the [{name}] placeholders of a template are among the
    names the pattern extracts, in the same order, and the two lists are
    equal exactly when the template has no stray closing brace. *)
Theorem extraction_refines_placeholders path :
  placeholders_spec path `sublist_of` pathParameters_of path
  ∧ (pathParameters_of path = placeholders_spec path
     ↔ no_stray_close path = true).
Proof.
  split; [apply placeholders_spec_sublist|].
  split; [|apply pathParameters_of_placeholders].
  unfold no_stray_close.
  rewrite pathParameters_of_match, (match_from_closed_runs _ false).
  pose proof (placeholders_spec_closed_runs path false EmptyString) as H.
  simpl in H. rewrite <- H. intros Heq. by apply filter_fst_all.
Qed.

(** ** The parameter list *)

(** [httpEventToParameters] returns parameters of two kinds only: a
    parameter [in: "body"] named [body], required, with the fixed
    description and the schema referring to the event's non-empty
    [bodyType], and parameters [in: "path"] of type string that carry
    neither description nor schema. *)
Theorem parameters_kinds rm ev :
  Forall (fun p =>
            (param_in p = "body"
             ∧ param_name p = "body"
             ∧ param_required p = true
             ∧ param_description p = Some "Body required in the request"
             ∧ param_type p = None
             ∧ ∃ b, bodyType ev = Some b ∧ b ≠ ""
                    ∧ param_schema p = Some {| ref := "#/definitions/" +:+ b |})
            ∨ (param_in p = "path"
               ∧ param_type p = Some "string"
               ∧ param_description p = None
               ∧ param_schema p = None))
         (httpEventToParameters rm ev).
Proof.
  rewrite httpEventToParameters_shape. apply Forall_app. split.
  - unfold body_part. destruct (bodyType ev) as [b|]; [|constructor].
    destruct b as [|c b]; [constructor|].
    simpl. constructor; [|constructor].
    left. repeat split. exists (String c b). by repeat split.
  - destruct (parameters_path ev) as [decl|]; [apply Forall_app; split|];
      apply Forall_forall; intros p Hp;
      apply list_elem_of_In, in_map_iff in Hp as (x & <- & _); right;
      by repeat split.
Qed.

(** An empty [parameters.path] object gives the same list as no
    declaration at all: the names of the template, all required. *)
Theorem empty_declaration_is_implicit rm ev ev' :
  path ev = path ev' →
  bodyType ev = bodyType ev' →
  parameters_path ev = Some [] →
  parameters_path ev' = None →
  httpEventToParameters rm ev = httpEventToParameters rm ev'.
Proof.
  intros Hpath Hbody Hev Hev'.
  rewrite !httpEventToParameters_shape, Hev, Hev'.
  unfold body_part. by rewrite Hpath, Hbody.
Qed.

Lemma empty_declaration_is_implicit_witness :
  httpEventToParameters removeStringFromArray_spec
    (with_parameters [] (event_of "users/{id}" "get"))
  = httpEventToParameters removeStringFromArray_spec
      (event_of "users/{id}" "get").
Proof.
  exact (empty_declaration_is_implicit removeStringFromArray_spec
           (with_parameters [] (event_of "users/{id}" "get"))
           (event_of "users/{id}" "get") eq_refl eq_refl eq_refl eq_refl).
Defined.

(** A parameter is optional only when [parameters.path] declares it so:
    the body parameter and the path parameters taken from the template are
    required. *)
Theorem optional_only_when_declared rm ev p :
  p ∈ httpEventToParameters rm ev →
  param_required p = false →
  ∃ decl, parameters_path ev = Some decl
          ∧ (param_name p, false) ∈ decl
          ∧ p = pathParameter (param_name p) false.
Proof.
  rewrite httpEventToParameters_shape. intros Hp Hopt.
  apply elem_of_app in Hp as [Hp | Hp].
  - unfold body_part in Hp. destruct (bodyType ev) as [b|].
    + destruct (truthy_string b);
        [apply list_elem_of_singleton in Hp as -> | apply elem_of_nil in Hp];
        done.
    + by apply elem_of_nil in Hp.
  - destruct (parameters_path ev) as [decl|].
    + apply elem_of_app in Hp as [Hp | Hp];
        apply list_elem_of_In, in_map_iff in Hp as (x & <- & Hx); [|done].
      exists decl. destruct x as [name required]. simpl in *. subst required.
      split; [done|]. split; [by apply list_elem_of_In | done].
    + by apply list_elem_of_In, in_map_iff in Hp as (x & <- & Hx).
Qed.

Lemma optional_only_when_declared_witness :
  ∃ decl,
    parameters_path
      (with_parameters [("id", false)] (event_of "users/{id}/{tab}" "get"))
    = Some decl
    ∧ ("id", false) ∈ decl
    ∧ pathParameter "id" false = pathParameter "id" false.
Proof.
  apply (optional_only_when_declared removeStringFromArray_spec
           (with_parameters [("id", false)] (event_of "users/{id}/{tab}" "get"))
           (pathParameter "id" false)).
  - apply elem_of_cons. by left.
  - reflexivity.
Defined.

(** ** The responses *)

(** For declared status codes other than [__proto__], the responses object
    is empty exactly when the route declares an empty [responses] object:
    an absent declaration gets the default entry, a declaration with
    entries gets theirs. *)
Theorem formatResponses_empty_iff responses :
  (∀ entries, responses = Some entries → "__proto__" ∉ entries.*1) →
  formatResponses responses = ∅ ↔ responses = Some [].
Proof.
  intros _. split; [|by intros ->].
  destruct responses as [[|[statusCode details] entries]|]; simpl.
  - done.
  - intros Hempty. exfalso.
    assert (statusCode ∈ dom (fold_left format_step entries
              (<[statusCode := format_entry statusCode details]> ∅))) as Hin.
    { rewrite format_fold_dom, dom_insert_L.
      apply elem_of_union_r, elem_of_union_l. by apply elem_of_singleton. }
    rewrite Hempty, dom_empty_L in Hin. by apply elem_of_empty in Hin.
  - intros Hempty. exfalso.
    apply (f_equal (fun m : gmap string Response => m !! "200")) in Hempty.
    by rewrite lookup_singleton_eq, lookup_empty in Hempty.
Qed.

Lemma formatResponses_empty_iff_witness :
  formatResponses (Some [("201", ResponseString "Created")]) = ∅
  ↔ Some [("201", ResponseString "Created")] = Some [].
Proof.
  apply (formatResponses_empty_iff (Some [("201", ResponseString "Created")])).
  intros entries [= <-]. apply (bool_decide_unpack _). vm_compute. exact I.
Defined.

Lemma format_fold_provenance entries formatted statusCode r :
  fold_left format_step entries formatted !! statusCode = Some r →
  (∃ details, (statusCode, details) ∈ entries
              ∧ r = format_entry statusCode details)
  ∨ formatted !! statusCode = Some r.
Proof.
  revert formatted. induction entries as [|[c d] entries IH];
    intros formatted Hr; [by right|].
  simpl in Hr. apply IH in Hr as [(details & Hin & ->) | Hr].
  - left. exists details. split; [by right | done].
  - destruct (decide (c = statusCode)) as [-> | Hne].
    + rewrite lookup_insert_eq in Hr. injection Hr as <-.
      left. exists d. split; [by left | done].
    + rewrite lookup_insert_ne in Hr by done. by right.
Qed.

(** Every response of a declared [responses] object stems from a declared
    entry of the same status code, and the schema it may carry refers to
    [#/definitions/<name>] for a non-empty name. *)
Theorem formatResponses_provenance entries statusCode r :
  formatResponses (Some entries) !! statusCode = Some r →
  (∃ details, (statusCode, details) ∈ entries
              ∧ r = format_entry statusCode details)
  ∧ ∀ schema, resp_schema r = Some schema →
              ∃ name, name ≠ "" ∧ ref schema = "#/definitions/" +:+ name.
Proof.
  intros Hr. apply format_fold_provenance in Hr as [(details & Hin & ->) | Hr];
    [|by rewrite lookup_empty in Hr].
  split; [by exists details|].
  intros schema. destruct details as [s | d [[|c name]|]]; simpl; try done.
  intros [= <-]. by exists (String c name).
Qed.

Lemma formatResponses_provenance_witness :
  ∃ details,
    ("200", details) ∈ [("200", ResponseObject None (Some "User"))]
    ∧ format_entry "200" (ResponseObject None (Some "User"))
      = format_entry "200" details.
Proof.
  refine (proj1 (formatResponses_provenance
                   [("200", ResponseObject None (Some "User"))] "200"
                   (format_entry "200" (ResponseObject None (Some "User"))) _)).
  unfold formatResponses. simpl. apply lookup_insert_eq.
Defined.

(** A response declared as an object never gets an empty description; a
    response declared as a string gets that string, be it empty. *)
Theorem object_response_described entries statusCode d b :
  NoDup entries.*1 →
  (statusCode, ResponseObject d b) ∈ entries →
  ∃ r, formatResponses (Some entries) !! statusCode = Some r
       ∧ resp_description r ≠ "".
Proof.
  intros Hnd Hin. eexists. split.
  - unfold formatResponses. by apply format_fold_entry.
  - simpl. destruct d as [[|c s]|]; simpl; try done;
      by destruct statusCode.
Qed.

Lemma object_response_described_witness :
  ∃ r,
    formatResponses (Some [("404", ResponseObject (Some "") None)]) !! "404"
    = Some r
    ∧ resp_description r ≠ "".
Proof.
  apply (object_response_described
           [("404", ResponseObject (Some "") None)] "404" (Some "") None).
  - apply (bool_decide_unpack _). vm_compute. exact I.
  - apply elem_of_cons. by left.
Defined.

(** ** The paths map *)

Lemma routes_function fs route :
  route ∈ routes fs → ∃ config, (route.1, config) ∈ fs.
Proof.
  unfold routes. intros Hin.
  apply list_elem_of_In, in_flat_map in Hin as ([name config] & Hentry & Hroute).
  apply list_elem_of_In, list_elem_of_omap in Hroute as (e & _ & Hroute).
  simpl in *. unfold route_of in Hroute.
  destruct (selected_trigger e) as [[s | h]|]; try done.
  injection Hroute as <-. exists config. by apply list_elem_of_In.
Qed.

(** Every operation object of the generated paths comes from a route of
    the service declared for that path and method: its [operationId] and
    [summary] are the name of the route's function, it consumes and
    produces [application/json], and it carries no [security]. *)
Theorem operations_stem_from_routes rm this p m op :
  operation_at p m (paths (this_swagger (generatePaths rm this))) = Some op →
  ∃ route,
    route ∈ routes (functions (serverless_service this))
    ∧ (∃ config, (route.1, config) ∈ functions (serverless_service this))
    ∧ normalize_path (path route.2) = p
    ∧ method route.2 = m
    ∧ op = operation_of rm route.1 route.2
    ∧ operationId op = route.1
    ∧ summary op = route.1
    ∧ consumes op = ["application/json"]
    ∧ produces op = ["application/json"]
    ∧ security op = None.
Proof.
  rewrite generatePaths_operation_at. unfold last_route.
  destruct (last (filter _ _)) as [route|] eqn:Hlast; [|done].
  intros [= <-]. exists route.
  apply last_Some_elem_of, list_elem_of_filter in Hlast as [[Hp Hm] Hin].
  split; [done|]. split; [by apply routes_function|]. by repeat split.
Qed.

Lemma operations_stem_from_routes_witness :
  ∃ route,
    route ∈ routes [("getUser",
                     function_of [http_event (event_of "user/{id}" "get")])]
    ∧ (∃ config,
         (route.1, config)
         ∈ [("getUser", function_of [http_event (event_of "user/{id}" "get")])])
    ∧ normalize_path (path route.2) = "/user/{id}"
    ∧ method route.2 = "get"
    ∧ operation_of removeStringFromArray_spec "getUser"
        (event_of "user/{id}" "get")
      = operation_of removeStringFromArray_spec route.1 route.2
    ∧ operationId
        (operation_of removeStringFromArray_spec "getUser"
           (event_of "user/{id}" "get")) = route.1
    ∧ summary
        (operation_of removeStringFromArray_spec "getUser"
           (event_of "user/{id}" "get")) = route.1
    ∧ consumes
        (operation_of removeStringFromArray_spec "getUser"
           (event_of "user/{id}" "get")) = ["application/json"]
    ∧ produces
        (operation_of removeStringFromArray_spec "getUser"
           (event_of "user/{id}" "get")) = ["application/json"]
    ∧ security
        (operation_of removeStringFromArray_spec "getUser"
           (event_of "user/{id}" "get")) = None.
Proof.
  apply (operations_stem_from_routes removeStringFromArray_spec
           (plugin_of "api" None
              [("getUser",
                function_of [http_event (event_of "user/{id}" "get")])])
           "/user/{id}" "get").
  by rewrite generatePaths_operation_at.
Defined.

Lemma add_route_wellformed rm (ps : Paths) route :
  map_Forall (fun p (ops : gmap string Operation) =>
                (∃ s, p = String "/" s) ∧ ops ≠ ∅) ps →
  map_Forall (fun p (ops : gmap string Operation) =>
                (∃ s, p = String "/" s) ∧ ops ≠ ∅) (add_route rm ps route).
Proof.
  intros Hps. unfold add_route. apply map_Forall_insert_2; [|done].
  split; [apply normalize_path_slash|]. apply insert_non_empty.
Qed.

(** When no route has the method [__proto__], every key of the generated
    paths starts with ['/'] and the object stored under a key holds at
    least one operation. *)
Theorem paths_wellformed rm this p ops :
  Forall (fun route : string * EitherHttpEvent => method route.2 ≠ "__proto__")
         (routes (functions (serverless_service this))) →
  paths (this_swagger (generatePaths rm this)) !! p = Some ops →
  (∃ s, p = String "/" s) ∧ ops ≠ ∅.
Proof.
  intros _. rewrite generatePaths_paths.
  assert (∀ rs (ps : Paths),
            map_Forall (fun p (ops : gmap string Operation) =>
                          (∃ s, p = String "/" s) ∧ ops ≠ ∅) ps →
            map_Forall (fun p (ops : gmap string Operation) =>
                          (∃ s, p = String "/" s) ∧ ops ≠ ∅)
                       (fold_left (add_route rm) rs ps)) as Hfold.
  { induction rs as [|route rs IH]; intros ps Hps; [done|].
    simpl. by apply IH, add_route_wellformed. }
  intros Hp. eapply (Hfold _ ∅); [apply map_Forall_empty | exact Hp].
Qed.

Lemma paths_wellformed_witness :
  (∃ s, "/users" = String "/" s)
  ∧ ({[ "get" := operation_of removeStringFromArray_spec "listUsers"
                   (event_of "users" "get") ]} : gmap string Operation) ≠ ∅.
Proof.
  apply (paths_wellformed removeStringFromArray_spec
           (plugin_of "api" None
              [("listUsers", function_of [http_event (event_of "users" "get")])])
           "/users").
  - repeat constructor. discriminate.
  - rewrite generatePaths_paths. simpl. unfold add_route. simpl.
    by rewrite lookup_insert_eq.
Defined.

(** The generated paths are empty exactly when the service has no route:
    no event whose selected trigger is in object form. *)
Theorem paths_empty_iff rm this :
  paths (this_swagger (generatePaths rm this)) = ∅
  ↔ routes (functions (serverless_service this)) = [].
Proof.
  rewrite generatePaths_paths. split.
  - intros Hempty.
    destruct (routes (functions (serverless_service this)))
      as [|route rs] eqn:Hroutes; [done|].
    exfalso.
    assert (is_Some (fold_left (add_route rm) (route :: rs) ∅
                       !! normalize_path (path route.2))) as Hsome.
    { apply paths_keys_routes. right. exists route. split; [by left | done]. }
    rewrite Hempty, lookup_empty in Hsome. by destruct Hsome.
  - by intros ->.
Qed.

Lemma normalize_path_idempotent t :
  normalize_path (normalize_path t) = normalize_path t.
Proof. by destruct (normalize_path_slash t) as [s ->]. Qed.

(** Normalizing a path twice changes nothing more, and a template written
    without its leading ['/'] is stored under the same key as the template
    written with it. *)
Theorem normalize_path_collapses t :
  normalize_path (normalize_path t) = normalize_path t
  ∧ normalize_path ("/" +:+ t) = "/" +:+ t
  ∧ ((∀ s, t ≠ String "/" s) → normalize_path t = normalize_path ("/" +:+ t)).
Proof.
  split; [apply normalize_path_idempotent|]. split; [done|].
  intros Hne. by rewrite (proj2 (normalize_path_cases t) Hne).
Qed.

Lemma normalize_path_collapses_witness :
  normalize_path "users/{id}" = normalize_path ("/" +:+ "users/{id}").
Proof.
  apply (proj2 (proj2 (normalize_path_collapses "users/{id}"))).
  intros s. discriminate.
Defined.

(** Which trigger of an event counts: an [http] trigger in object form is
    the route, whatever [httpApi] holds; a non-empty shorthand [http]
    skips the event, even beside an [httpApi] object; [httpApi] is read
    when [http] is absent or the empty string. *)
Theorem trigger_selection rm name ps e :
  (∀ h, http e = Some (Full h) →
        add_event rm name ps e = add_route rm ps (name, h))
  ∧ (∀ s, s ≠ "" → http e = Some (Shorthand s) →
          add_event rm name ps e = ps)
  ∧ (∀ h, http e = None ∨ http e = Some (Shorthand "") →
          httpApi e = Some (Full h) →
          add_event rm name ps e = add_route rm ps (name, h)).
Proof.
  unfold add_event, selected_trigger. repeat split.
  - by intros h ->.
  - intros s Hs ->. by destruct s.
  - by intros h [-> | ->] ->.
Qed.

Lemma trigger_selection_witness :
  add_event removeStringFromArray_spec "users" ∅
    {| http := Some (Shorthand "GET users");
       httpApi := Some (Full (event_of "users" "get")) |}
  = ∅.
Proof.
  apply (proj1 (proj2 (trigger_selection removeStringFromArray_spec "users" ∅
                         {| http := Some (Shorthand "GET users");
                            httpApi := Some (Full (event_of "users" "get")) |}))
           "GET users"); [discriminate | reflexivity].
Defined.

Lemma routes_Permutation fs fs' : fs ≡ₚ fs' → routes fs ≡ₚ routes fs'.
Proof. intros Hperm. unfold routes. by apply Permutation_flat_map. Qed.

Lemma declared_at_most_once p m rs :
  NoDup (route_key <$> rs) →
  (length (filter (declares p m) rs) ≤ 1)%nat.
Proof.
  intros Hnd.
  assert (NoDup (route_key <$> filter (declares p m) rs)) as Hnd'.
  { eapply sublist_NoDup; [exact Hnd|]. apply fmap_sublist, sublist_filter. }
  assert (Forall (declares p m) (filter (declares p m) rs)) as Hall.
  { apply Forall_forall. intros r Hr. by apply list_elem_of_filter in Hr as [? _]. }
  destruct (filter (declares p m) rs) as [|a [|b l]]; simpl; [lia | lia |].
  exfalso. apply Forall_cons in Hall as [[Hap Ham] Hall].
  apply Forall_cons in Hall as [[Hbp Hbm] _].
  rewrite !fmap_cons in Hnd'. apply NoDup_cons in Hnd' as [Hnotin _].
  apply Hnotin. replace (route_key a) with (route_key b); [by left|].
  unfold route_key. by rewrite Hap, Ham, Hbp, Hbm.
Qed.

Lemma last_route_Permutation p m rs rs' :
  rs ≡ₚ rs' → NoDup (route_key <$> rs) →
  last_route p m rs = last_route p m rs'.
Proof.
  intros Hperm Hnd. unfold last_route.
  pose proof (declared_at_most_once p m rs Hnd) as Hlen.
  assert (filter (declares p m) rs ≡ₚ filter (declares p m) rs') as Hfilter
    by by rewrite Hperm.
  destruct (filter (declares p m) rs) as [|a [|b l]]; simpl in Hlen; [| |lia].
  - by apply Permutation_nil_l in Hfilter as <-.
  - by apply Permutation_singleton_l in Hfilter as <-.
Qed.

Lemma paths_ext (ps1 ps2 : Paths) :
  (∀ p, is_Some (ps1 !! p) ↔ is_Some (ps2 !! p)) →
  (∀ p m, operation_at p m ps1 = operation_at p m ps2) →
  ps1 = ps2.
Proof.
  intros Hkeys Hops. apply map_eq. intros p.
  specialize (Hkeys p). pose proof (Hops p) as Hp. unfold operation_at in Hp.
  destruct (ps1 !! p) as [ops1|], (ps2 !! p) as [ops2|]; simpl in *.
  - f_equal. apply map_eq. intros m. apply Hp.
  - destruct Hkeys as [H _]. by destruct H.
  - destruct Hkeys as [_ H]. by destruct H.
  - done.
Qed.

(** When no two routes of the service declare the same path and method,
    the generated paths do not depend on the order in which the functions
    are enumerated. *)
Theorem paths_order_independent rm this fs fs' :
  fs ≡ₚ fs' →
  NoDup (route_key <$> routes fs) →
  paths (this_swagger (generatePaths rm (with_functions this fs)))
  = paths (this_swagger (generatePaths rm (with_functions this fs'))).
Proof.
  intros Hperm Hnd. apply routes_Permutation in Hperm.
  apply paths_ext.
  - intros p. rewrite !generatePaths_paths, !paths_keys_routes. simpl.
    split; intros [H | (r & Hr & Hp)]; try (by left); right; exists r;
      (split; [|done]); [by rewrite <- Hperm | by rewrite Hperm].
  - intros p m. rewrite !generatePaths_operation_at. simpl.
    by rewrite (last_route_Permutation p m _ _ Hperm Hnd).
Qed.

Lemma paths_order_independent_witness :
  paths (this_swagger
    (generatePaths removeStringFromArray_spec
       (with_functions (plugin_of "api" None [])
          [("listUsers", function_of [http_event (event_of "users" "get")]);
           ("addUser", function_of [http_event (event_of "users" "post")])])))
  = paths (this_swagger
      (generatePaths removeStringFromArray_spec
         (with_functions (plugin_of "api" None [])
            [("addUser", function_of [http_event (event_of "users" "post")]);
             ("listUsers", function_of [http_event (event_of "users" "get")])]))).
Proof.
  apply (paths_order_independent removeStringFromArray_spec
           (plugin_of "api" None [])).
  - apply perm_swap.
  - apply (bool_decide_unpack _). vm_compute. exact I.
Defined.

(** ** The definitions *)

(** What the callbacks print: nothing but the [anyOf] line, after what was
    printed before. *)
Lemma merge_sources_output host order combined out out' result :
  merge_sources host order combined out = (out', result) →
  ∃ extra, out' = out ++ extra
           ∧ Forall (fun line => line = ConsoleLog "includes anyOf") extra.
Proof.
  revert combined out. induction order as [|f order IH]; intros combined out.
  - intros [= <- <-]. exists []. by rewrite app_nil_r.
  - simpl. destruct (convert_source host f) as [[anyOf definition]|].
    + intros H. apply IH in H as (extra & -> & Hextra).
      destruct anyOf; [|by exists extra].
      exists (ConsoleLog "includes anyOf" :: extra).
      split; [by rewrite <- app_assoc | by constructor].
    + intros [= <- <-]. exists []. by rewrite app_nil_r.
Qed.

(** [Promise.all] rejects exactly when a source fails. *)
Lemma merge_sources_rejected_iff host order combined out :
  (merge_sources host order combined out).2 = None
  ↔ ∃ filepath, filepath ∈ order ∧ convert_source host filepath = None.
Proof.
  revert combined out. induction order as [|f order IH]; intros combined out.
  - simpl. split; [done|]. intros (f & Hf & _). by apply elem_of_nil in Hf.
  - simpl. destruct (convert_source host f) as [[anyOf definition]|] eqn:Hf.
    + rewrite IH. split.
      * intros (g & Hg & Hfail). exists g. split; [by right | done].
      * intros (g & Hg & Hfail).
        apply elem_of_cons in Hg as [-> | Hg]; [congruence|]. by exists g.
    + split; [|done]. intros _. exists f. split; [by left | done].
Qed.

(** [gatherTypes] prints its cli line after what was printed before.
    Among the lines that follow it, the error line occurs exactly when a
    source of the list fails; when none fails, [swagger.definitions] is
    assigned and the lines that follow are [anyOf] lines only. *)
Theorem gatherTypes_outcome host this :
  settle_order host (typesFile this) ≡ₚ typesFile this →
  ∃ out,
    printed (gatherTypes host this)
    = printed this
        ++ CliLog "this is where we gather the types into a single file"
        :: out
    ∧ (ConsoleLog "error getting types" ∈ out
       ↔ ∃ filepath, filepath ∈ typesFile this
                     ∧ convert_source host filepath = None)
    ∧ ((∀ filepath, filepath ∈ typesFile this →
                    is_Some (convert_source host filepath)) →
       is_Some (definitions (this_swagger (gatherTypes host this)))
       ∧ Forall (fun line => line = ConsoleLog "includes anyOf") out).
Proof.
  intros Hperm.
  pose proof (merge_sources_rejected_iff host
                (settle_order host (typesFile this)) ∅
                (printed this
                   ++ [CliLog "this is where we gather the types into a single file"]))
    as Hiff.
  unfold gatherTypes.
  destruct (merge_sources host _ ∅ _) as [out' result] eqn:Hmerge.
  apply merge_sources_output in Hmerge as (extra & -> & Hextra).
  simpl in Hiff.
  assert ((∃ filepath, filepath ∈ settle_order host (typesFile this)
                       ∧ convert_source host filepath = None)
          ↔ ∃ filepath, filepath ∈ typesFile this
                        ∧ convert_source host filepath = None) as Hsame.
  { split; intros (f & Hf & Hfail); exists f; (split; [|done]);
      [by rewrite <- Hperm | by rewrite Hperm]. }
  rewrite Hsame in Hiff. clear Hsame.
  destruct result as [combined|]; cbn [printed this_swagger].
  - exists extra. split; [by rewrite <- app_assoc|]. split.
    + split.
      * intros Hin. rewrite Forall_forall in Hextra.
        apply Hextra in Hin. discriminate.
      * intros Hfail. apply Hiff in Hfail. done.
    + intros _. split; [by eexists | done].
  - exists (extra ++ [ConsoleLog "error getting types"]).
    split; [by rewrite <- !app_assoc|]. split.
    + split; [intros _; by apply Hiff|].
      intros _. apply elem_of_app. right. by apply list_elem_of_singleton.
    + intros Hall. exfalso.
      destruct (proj1 Hiff eq_refl) as (f & Hf & Hfail).
      destruct (Hall f Hf) as [? ?]. congruence.
Qed.

Lemma gatherTypes_outcome_witness :
  ∃ out,
    printed
      (gatherTypes (sample_host id)
         (plugin_of "api" (Some ["one.d.ts"; "missing.d.ts"]) []))
    = [] ++ CliLog "this is where we gather the types into a single file"
         :: out
    ∧ ConsoleLog "error getting types" ∈ out.
Proof.
  destruct (gatherTypes_outcome (sample_host id)
              (plugin_of "api" (Some ["one.d.ts"; "missing.d.ts"]) [])
              (Permutation_refl _)) as (out & Hout & Hiff & _).
  exists out. split; [exact Hout|]. apply Hiff.
  exists "missing.d.ts". split; [|reflexivity].
  apply elem_of_cons. right. apply elem_of_cons. by left.
Defined.

(** An empty [typefiles] list is a list like another: the default file is
    not read, nothing fails, and [swagger.definitions] is the empty map. *)
Theorem gatherTypes_empty_typefiles host this :
  typefiles (serverless_service this) = Some [] →
  settle_order host (typesFile this) ≡ₚ typesFile this →
  definitions (this_swagger (gatherTypes host this)) = Some ∅
  ∧ printed (gatherTypes host this)
    = printed this
        ++ [CliLog "this is where we gather the types into a single file"].
Proof.
  intros Hfiles. unfold gatherTypes, typesFile. rewrite Hfiles. simpl.
  intros ->%Permutation_nil_r. done.
Qed.

Lemma gatherTypes_empty_typefiles_witness :
  definitions
    (this_swagger (gatherTypes (sample_host id) (plugin_of "api" (Some []) [])))
  = Some ∅.
Proof.
  exact (proj1 (gatherTypes_empty_typefiles (sample_host id)
                  (plugin_of "api" (Some []) []) eq_refl (Permutation_refl _))).
Defined.

Lemma sources_complete host order :
  Forall (fun filepath => is_Some (source_schemas host filepath)) order →
  Forall2 (fun filepath m => source_schemas host filepath = Some m)
          order (omap (source_schemas host) order).
Proof.
  induction 1 as [|f order [m Hm] _ IH]; [constructor|].
  simpl. rewrite Hm. by constructor.
Qed.

Lemma gatherTypes_merged host this :
  Forall (fun filepath => is_Some (source_schemas host filepath))
         (settle_order host (typesFile this)) →
  definitions (this_swagger (gatherTypes host this))
  = Some (fold_left spread
            (omap (source_schemas host) (settle_order host (typesFile this)))
            ∅).
Proof.
  intros Hall. unfold gatherTypes.
  destruct (merge_sources_complete host _ _ ∅
              (printed this
                 ++ [CliLog "this is where we gather the types into a single file"])
              (sources_complete host _ Hall)) as [out' ->].
  done.
Qed.

Lemma last_defined_is_Some name maps :
  is_Some (last_defined name maps)
  ↔ ∃ m : gmap string Json, m ∈ maps ∧ is_Some (m !! name).
Proof.
  induction maps as [|m maps IH]; simpl.
  - split; [by intros [? ?]|]. intros (m & Hm & _). by apply elem_of_nil in Hm.
  - destruct (last_defined name maps) as [d|] eqn:Hlast.
    + split; [|by eauto]. intros _.
      destruct (proj1 IH) as (m' & Hm' & Hd); [by eauto|].
      exists m'. split; [by right | done].
    + split.
      * intros Hm. exists m. split; [by left | done].
      * intros (m' & Hm' & Hd).
        apply elem_of_cons in Hm' as [-> | Hm']; [done|].
        exfalso. destruct (proj2 IH) as [? [=]]. by exists m'.
Qed.

(** When every source converts, the names of [swagger.definitions] are the
    names the sources define, no more and no less, whatever the order in
    which the conversions complete. *)
Theorem gatherTypes_names host this :
  settle_order host (typesFile this) ≡ₚ typesFile this →
  Forall (fun filepath => is_Some (source_schemas host filepath))
         (typesFile this) →
  ∃ merged,
    definitions (this_swagger (gatherTypes host this)) = Some merged
    ∧ ∀ name,
        is_Some (merged !! name)
        ↔ ∃ filepath m, filepath ∈ typesFile this
                        ∧ source_schemas host filepath = Some m
                        ∧ is_Some (m !! name).
Proof.
  intros Hperm Hall.
  assert (Forall (fun filepath => is_Some (source_schemas host filepath))
                 (settle_order host (typesFile this))) as Hall'
    by by rewrite Hperm.
  eexists. split; [by apply gatherTypes_merged|].
  intros name. rewrite fold_spread_lookup, lookup_empty.
  assert (is_Some match last_defined name
                          (omap (source_schemas host)
                                (settle_order host (typesFile this))) with
                  | Some d => Some d
                  | None => None
                  end
          ↔ is_Some (last_defined name
                       (omap (source_schemas host)
                             (settle_order host (typesFile this))))) as ->
    by by destruct (last_defined name _).
  rewrite last_defined_is_Some. split.
  - intros (m & Hm & Hname).
    apply list_elem_of_omap in Hm as (f & Hf & Hfm).
    exists f, m. split; [by rewrite <- Hperm | done].
  - intros (f & m & Hf & Hfm & Hname). exists m. split; [|done].
    apply list_elem_of_omap. exists f. split; [by rewrite Hperm | done].
Qed.

Lemma gatherTypes_names_witness :
  ∃ merged,
    definitions
      (this_swagger
         (gatherTypes (sample_host reverse)
            (plugin_of "api" (Some ["one.d.ts"; "two.d.ts"]) [])))
    = Some merged
    ∧ ∀ name,
        is_Some (merged !! name)
        ↔ ∃ filepath m, filepath ∈ ["one.d.ts"; "two.d.ts"]
                        ∧ source_schemas (sample_host reverse) filepath = Some m
                        ∧ is_Some (m !! name).
Proof.
  apply (gatherTypes_names (sample_host reverse)
           (plugin_of "api" (Some ["one.d.ts"; "two.d.ts"]) [])).
  - apply perm_swap.
  - repeat constructor; by eexists.
Defined.

Lemma last_defined_filter name maps :
  last_defined name maps
  = last (filter (fun m : gmap string Json => is_Some (m !! name)) maps)
      ≫= (fun m => m !! name).
Proof.
  induction maps as [|m maps IH]; [done|]. simpl. rewrite IH.
  destruct (decide (is_Some (m !! name))) as [Hm | Hm].
  - rewrite filter_cons_True by done. rewrite last_cons.
    destruct (last (filter _ maps)) as [m'|] eqn:Hlast; simpl; [|done].
    apply last_Some_elem_of, list_elem_of_filter in Hlast as [[d Hd] _].
    by rewrite Hd.
  - rewrite filter_cons_False by done.
    destruct (last (filter _ maps) ≫= _); [done|].
    by apply eq_None_not_Some in Hm.
Qed.

Lemma defined_once_Permutation maps maps' :
  maps ≡ₚ maps' → defined_once maps → defined_once maps'.
Proof.
  intros Hperm Honce name. specialize (Honce name). by rewrite <- Hperm.
Qed.

Lemma fold_spread_Permutation maps maps' :
  maps ≡ₚ maps' → defined_once maps →
  fold_left spread maps ∅ = fold_left spread maps' ∅.
Proof.
  intros Hperm Honce. apply map_eq. intros name.
  rewrite !fold_spread_lookup, !last_defined_filter.
  specialize (Honce name).
  assert (filter (fun m : gmap string Json => is_Some (m !! name)) maps
          ≡ₚ filter (fun m : gmap string Json => is_Some (m !! name)) maps')
    as Hfilter by by rewrite Hperm.
  destruct (filter _ maps) as [|a [|b l]]; simpl in Honce; [| |lia].
  - by apply Permutation_nil_l in Hfilter as <-.
  - by apply Permutation_singleton_l in Hfilter as <-.
Qed.

(** When every source converts and no name is defined by two sources,
    [swagger.definitions] does not depend on the order in which the
    conversions complete. *)
Theorem definitions_order_independent host order this :
  settle_order host (typesFile this) ≡ₚ typesFile this →
  order (typesFile this) ≡ₚ typesFile this →
  Forall (fun filepath => is_Some (source_schemas host filepath))
         (typesFile this) →
  defined_once (omap (source_schemas host) (typesFile this)) →
  definitions (this_swagger (gatherTypes (with_order host order) this))
  = definitions (this_swagger (gatherTypes host this)).
Proof.
  intros Hsettle Horder Hall Honce.
  rewrite (gatherTypes_merged host) by by rewrite Hsettle.
  rewrite (gatherTypes_merged (with_order host order))
    by (change (source_schemas (with_order host order))
          with (source_schemas host);
        change (settle_order (with_order host order)) with order;
        by rewrite Horder).
  change (source_schemas (with_order host order)) with (source_schemas host).
  change (settle_order (with_order host order)) with order.
  f_equal. apply fold_spread_Permutation.
  - by rewrite Horder, Hsettle.
  - eapply defined_once_Permutation; [|exact Honce]. by rewrite Horder.
Qed.

Lemma definitions_order_independent_witness :
  definitions
    (this_swagger
       (gatherTypes (with_order (pets_host id) reverse)
          (plugin_of "api" (Some ["pets.d.ts"; "owners.d.ts"]) [])))
  = definitions
      (this_swagger
         (gatherTypes (pets_host id)
            (plugin_of "api" (Some ["pets.d.ts"; "owners.d.ts"]) []))).
Proof.
  apply (definitions_order_independent (pets_host id) reverse
           (plugin_of "api" (Some ["pets.d.ts"; "owners.d.ts"]) [])).
  - reflexivity.
  - apply perm_swap.
  - repeat constructor; by eexists.
  - change (defined_once [ {[ "Pet" := widget_one ]};
                           {[ "Owner" := widget_two ]} ]).
    intros name. rewrite !filter_cons, filter_nil.
    repeat case_decide; simpl; try lia.
    exfalso.
    destruct H as [? [<- _]%lookup_singleton_Some].
    by destruct H0 as [? [? _]%lookup_singleton_Some].
Defined.

(** ** The rewriting of references *)

Lemma prefix_empty s : String.prefix EmptyString s = true.
Proof. by destruct s. Qed.

Lemma includes_cons needle c s :
  includes needle (String c s) = false →
  String.prefix needle (String c s) = false ∧ includes needle s = false.
Proof. cbn [includes]. intros H. by apply orb_false_elim in H. Qed.

(** A text that does not hold [/components/schema] goes through the
    replacement unchanged. *)
Theorem to_definitions_unchanged data :
  includes "/components/schema" data = false → to_definitions data = data.
Proof.
  unfold to_definitions. induction data as [|c data IH]; [done|].
  intros [Hprefix Hrest]%includes_cons.
  cbn [replace_from]. rewrite Hprefix. cbn [truthy_string andb].
  by rewrite IH.
Qed.

Lemma to_definitions_unchanged_witness :
  to_definitions "#/definitions/Pet" = "#/definitions/Pet".
Proof. exact (to_definitions_unchanged "#/definitions/Pet" eq_refl). Defined.

Lemma prefix_append p s : String.prefix p (p +:+ s) = true.
Proof.
  induction p as [|a p IH]; [apply prefix_empty|].
  rewrite append_cons. simpl. by destruct (ascii_dec a a).
Qed.

Lemma replace_from_skip pattern replacement a s :
  replace_from pattern replacement (String.length a) (a +:+ s)
  = replace_from pattern replacement 0 s.
Proof.
  induction a as [|c a IH]; [done|]. rewrite append_cons. by simpl.
Qed.

Lemma to_definitions_front data :
  to_definitions ("/components/schema" +:+ data)
  = "/definitions" +:+ to_definitions data.
Proof.
  unfold to_definitions.
  pose proof (prefix_append "/components/schema" data) as Hprefix.
  change ("/components/schema" +:+ data)
    with (String "/" ("components/schema" +:+ data)) in *.
  cbn [replace_from]. rewrite Hprefix. cbn [truthy_string andb].
  by rewrite <- (replace_from_skip _ _ "components/schema" data).
Qed.

(** An occurrence of [/components/schema] becomes [/definitions] and the
    replacement goes on with what follows it; a character that does not
    start an occurrence is kept.  So a reference [#/components/schemas/X]
    is rewritten with the [s] that follows the occurrence kept. *)
Theorem to_definitions_occurrence data :
  to_definitions ("/components/schema" +:+ data)
  = "/definitions" +:+ to_definitions data
  ∧ to_definitions ("#/components/schemas" +:+ data)
    = "#/definitionss" +:+ to_definitions data
  ∧ ∀ c, String.prefix "/components/schema" (String c data) = false →
         to_definitions (String c data) = String c (to_definitions data).
Proof.
  assert (∀ c s, String.prefix "/components/schema" (String c s) = false →
                 to_definitions (String c s) = String c (to_definitions s))
    as Hkeep.
  { intros c s Hc. unfold to_definitions. cbn [replace_from]. by rewrite Hc. }
  split; [apply to_definitions_front|]. split; [|intros c; apply Hkeep].
  change ("#/components/schemas" +:+ data)
    with (String "#" ("/components/schema" +:+ String "s" data)).
  rewrite Hkeep by done. rewrite to_definitions_front.
  by rewrite Hkeep.
Qed.

Lemma to_definitions_occurrence_witness :
  to_definitions (String "#" "/definitions/Pet")
  = String "#" (to_definitions "/definitions/Pet").
Proof.
  exact (proj2 (proj2 (to_definitions_occurrence "/definitions/Pet"))
           "#"%char eq_refl).
Defined.

(** ** The injected functions *)

Section Entries.
Context {A : Type}.
Implicit Types (object entries : list (string * A)).

Lemma assign_entry_map key (value : A) object :
  (list_to_map (assign_entry key value object) : gmap string A)
  = <[key := value]> (list_to_map object).
Proof.
  induction object as [|[k v] object IH]; [done|]. simpl.
  destruct (decide (k = key)) as [-> | Hne]; simpl.
  - by rewrite insert_insert_eq.
  - rewrite IH. by apply insert_insert_ne.
Qed.

Lemma assign_entry_fresh key (value : A) object :
  key ∉ object.*1 → assign_entry key value object = object ++ [(key, value)].
Proof.
  induction object as [|[k v] object IH]; [done|]. simpl.
  intros Hfresh. apply not_elem_of_cons in Hfresh as [Hne Hfresh].
  rewrite decide_False by done. by rewrite IH.
Qed.

Lemma assign_entry_same key (value : A) object :
  NoDup object.*1 → (key, value) ∈ object →
  assign_entry key value object = object.
Proof.
  induction object as [|[k v] object IH]; intros Hnd Hin.
  - by apply elem_of_nil in Hin.
  - simpl in *. apply NoDup_cons in Hnd as [Hk Hnd].
    apply elem_of_cons in Hin as [[= <- <-] | Hin].
    + by rewrite decide_True.
    + rewrite decide_False; [by rewrite IH|].
      intros ->. apply Hk. apply list_elem_of_fmap. by exists (key, value).
Qed.

Lemma assign_entry_keys key (value : A) object :
  (assign_entry key value object).*1
  = if decide (key ∈ object.*1) then object.*1 else object.*1 ++ [key].
Proof.
  induction object as [|[k v] object IH]; [done|].
  cbn [assign_entry]. destruct (decide (k = key)) as [-> | Hne].
  - rewrite decide_True; [reflexivity | by left].
  - rewrite fmap_cons, IH. cbn [fst].
    destruct (decide (key ∈ object.*1)) as [Hin | Hin].
    + rewrite decide_True; [reflexivity | by right].
    + rewrite decide_False; [reflexivity|].
      intros [-> | ?]%elem_of_cons; done.
Qed.

Lemma assign_entry_NoDup key (value : A) object :
  NoDup object.*1 → NoDup (assign_entry key value object).*1.
Proof.
  intros Hnd. rewrite assign_entry_keys. case_decide; [done|].
  apply NoDup_app. split; [done|]. split; [|apply NoDup_singleton].
  intros x Hx ->%list_elem_of_singleton. done.
Qed.

Lemma assign_fold_NoDup entries object :
  NoDup object.*1 → NoDup (fold_left assign_step entries object).*1.
Proof.
  revert object. induction entries as [|e entries IH]; intros object Hnd;
    [done|].
  simpl. by apply IH, assign_entry_NoDup.
Qed.

Lemma assign_fold_map entries object :
  (list_to_map (fold_left assign_step entries object) : gmap string A)
  = fold_left (fun m (e : string * A) => <[e.1 := e.2]> m) entries
              (list_to_map object).
Proof.
  revert object. induction entries as [|e entries IH]; intros object; [done|].
  cbn [fold_left]. rewrite IH. f_equal. apply assign_entry_map.
Qed.

Lemma insert_fold_union entries (m : gmap string A) :
  NoDup entries.*1 →
  fold_left (fun m (e : string * A) => <[e.1 := e.2]> m) entries m
  = list_to_map entries ∪ m.
Proof.
  revert m. induction entries as [|[k v] entries IH]; intros m Hnd.
  - simpl. by rewrite (left_id_L ∅ (∪)).
  - rewrite fmap_cons in Hnd. cbn [fst] in Hnd.
    apply NoDup_cons in Hnd as [Hk Hnd].
    cbn [fold_left]. rewrite IH by done.
    rewrite list_to_map_cons. cbn [fst snd].
    rewrite <- insert_union_l. symmetry. apply insert_union_r.
    by apply not_elem_of_list_to_map_1.
Qed.

Lemma assign_fold_fresh entries object :
  NoDup (object.*1 ++ entries.*1) →
  fold_left assign_step entries object = object ++ entries.
Proof.
  revert object. induction entries as [|[k v] entries IH]; intros object Hnd.
  - by rewrite app_nil_r.
  - cbn [fold_left]. rewrite !fmap_cons in Hnd. cbn [fst] in Hnd.
    change (assign_step object (k, v)) with (assign_entry k v object).
    rewrite assign_entry_fresh.
    + rewrite IH; [by rewrite <- app_assoc|].
      rewrite fmap_app. simpl. by rewrite <- app_assoc.
    + apply NoDup_app in Hnd as (_ & Hdisj & _). intros Hin.
      apply (Hdisj k Hin). by left.
Qed.

Lemma assign_fold_same entries object :
  NoDup object.*1 →
  (∀ e, e ∈ entries → e ∈ object) →
  fold_left assign_step entries object = object.
Proof.
  intros Hnd. induction entries as [|[k v] entries IH]; intros Hin; [done|].
  cbn [fold_left].
  change (assign_step object (k, v)) with (assign_entry k v object).
  rewrite assign_entry_same; [|done|apply Hin; by left].
  apply IH. intros e He. apply Hin. by right.
Qed.

Lemma object_of_map entries :
  (list_to_map (object_of entries) : gmap string A)
  = fold_left (fun m (e : string * A) => <[e.1 := e.2]> m) entries ∅.
Proof. apply (assign_fold_map entries []). Qed.

Lemma object_of_NoDup entries : NoDup (object_of entries).*1.
Proof. apply (assign_fold_NoDup entries []). constructor. Qed.

Lemma object_of_spread_map a b :
  NoDup b.*1 →
  (list_to_map (object_of (a ++ b)) : gmap string A)
  = list_to_map b ∪ list_to_map (object_of a).
Proof.
  intros Hb. rewrite !object_of_map, fold_left_app.
  by apply insert_fold_union.
Qed.

End Entries.

Lemma filter_fresh_snoc (l xs : list string) k :
  k ∉ xs →
  filter (fun x => x ∉ l ++ [k]) xs = filter (fun x => x ∉ l) xs.
Proof.
  induction xs as [|x xs IH]; [done|].
  intros [Hne Hk]%not_elem_of_cons.
  destruct (decide (x ∈ l)) as [Hx | Hx].
  - rewrite !filter_cons_False; [by apply IH | |]; intros H; apply H;
      [done | apply elem_of_app; by left].
  - rewrite !filter_cons_True; [by rewrite IH | done |].
    intros [? | ->%list_elem_of_singleton]%elem_of_app; done.
Qed.

Lemma assign_fold_keys {A} (entries object : list (string * A)) :
  NoDup entries.*1 →
  (fold_left assign_step entries object).*1
  = object.*1 ++ filter (fun k => k ∉ object.*1) entries.*1.
Proof.
  revert object. induction entries as [|[k v] entries IH]; intros object Hnd.
  - simpl. by rewrite app_nil_r.
  - rewrite fmap_cons in Hnd. cbn [fst] in Hnd.
    apply NoDup_cons in Hnd as [Hk Hnd].
    cbn [fold_left]. rewrite IH by done.
    change (assign_step object (k, v)) with (assign_entry k v object).
    rewrite assign_entry_keys, fmap_cons. cbn [fst].
    destruct (decide (k ∈ object.*1)) as [Hin | Hin].
    + by rewrite filter_cons_False by (intros H; by apply H).
    + rewrite filter_cons_True by done. rewrite <- app_assoc. simpl.
      do 2 f_equal. by apply filter_fresh_snoc.
Qed.

(** After [addEndpointsAndLambda] the function map binds every injected
    name to the injected function and every other name as before; the
    functions that were there keep their place in the enumeration and the
    new ones come last, in their own order. *)
Theorem injected_functions_win swaggerFunctions this :
  NoDup (functions (serverless_service this)).*1 →
  NoDup swaggerFunctions.*1 →
  function_map
    (functions (serverless_service (addEndpointsAndLambda swaggerFunctions this)))
  = function_map swaggerFunctions
      ∪ function_map (functions (serverless_service this))
  ∧ (functions
       (serverless_service (addEndpointsAndLambda swaggerFunctions this))).*1
    = (functions (serverless_service this)).*1
        ++ filter (fun k => k ∉ (functions (serverless_service this)).*1)
                  swaggerFunctions.*1
  ∧ this_swagger (addEndpointsAndLambda swaggerFunctions this)
    = this_swagger this.
Proof.
  intros Hfs Hsf. set (fs := functions (serverless_service this)) in *.
  assert (object_of fs = fs) as Hcopy.
  { apply (assign_fold_fresh fs []). by simpl. }
  cbn [addEndpointsAndLambda with_functions serverless_service functions
       this_swagger].
  fold fs. split; [|split; [|done]].
  - unfold function_map. rewrite object_of_spread_map by done.
    by rewrite Hcopy.
  - unfold object_of. rewrite fold_left_app. fold (object_of fs).
    rewrite Hcopy. by apply assign_fold_keys.
Qed.

Lemma injected_functions_win_witness :
  (functions
     (serverless_service
        (addEndpointsAndLambda
           [("swaggerUI", function_of [http_event (event_of "swagger" "get")]);
            ("getUser", function_of [])]
           (plugin_of "api" None
              [("getUser", function_of [http_event (event_of "user" "get")]);
               ("addUser", function_of [])])))).*1
  = ["getUser"; "addUser"] ++ ["swaggerUI"].
Proof.
  refine (proj1 (proj2 (injected_functions_win
            [("swaggerUI", function_of [http_event (event_of "swagger" "get")]);
             ("getUser", function_of [])]
            (plugin_of "api" None
               [("getUser", function_of [http_event (event_of "user" "get")]);
                ("addUser", function_of [])]) _ _)));
    apply (bool_decide_unpack _); vm_compute; exact I.
Defined.

(** Running [addEndpointsAndLambda] again changes nothing: the hook of the
    command and the hook of the offline start may both fire. *)
Theorem addEndpointsAndLambda_idempotent swaggerFunctions this :
  NoDup swaggerFunctions.*1 →
  addEndpointsAndLambda swaggerFunctions
    (addEndpointsAndLambda swaggerFunctions this)
  = addEndpointsAndLambda swaggerFunctions this.
Proof.
  intros Hsf. unfold addEndpointsAndLambda at 1 3.
  set (fs := functions (serverless_service this)).
  set (merged := object_of (fs ++ swaggerFunctions)).
  assert (functions (serverless_service
                       (addEndpointsAndLambda swaggerFunctions this))
          = merged) as -> by done.
  assert (object_of (merged ++ swaggerFunctions) = merged) as ->.
  { pose proof (object_of_NoDup (fs ++ swaggerFunctions)) as Hnd.
    fold merged in Hnd.
    unfold object_of at 1. rewrite fold_left_app.
    rewrite (assign_fold_fresh merged []) by by simpl.
    apply assign_fold_same; [done|].
    intros [k v] Hin. apply elem_of_list_to_map; [done|].
    unfold merged. rewrite object_of_spread_map by done.
    apply lookup_union_Some_l. by apply elem_of_list_to_map. }
  unfold addEndpointsAndLambda, with_functions. simpl. done.
Qed.

Lemma addEndpointsAndLambda_idempotent_witness :
  addEndpointsAndLambda
    [("swaggerUI", function_of [http_event (event_of "swagger" "get")])]
    (addEndpointsAndLambda
       [("swaggerUI", function_of [http_event (event_of "swagger" "get")])]
       (plugin_of "api" None [("getUser", function_of [])]))
  = addEndpointsAndLambda
      [("swaggerUI", function_of [http_event (event_of "swagger" "get")])]
      (plugin_of "api" None [("getUser", function_of [])]).
Proof.
  apply addEndpointsAndLambda_idempotent.
  apply (bool_decide_unpack _). vm_compute. exact I.
Defined.

(** ** The command *)

Lemma generate_swagger_methods :
  methods_of_command "generate-swagger"
  = [BeforeGather; GatherTypes; GenerateSwagger; AddEndpointsAndLambda].
Proof. reflexivity. Qed.

(** The [generate-swagger] command runs [beforeGather], [gatherTypes],
    [generateSwagger] and [addEndpointsAndLambda], in this order, and the
    start of the offline server runs [addEndpointsAndLambda] alone.  One
    file is written, [./swagger.js], holding the document the plugin ends
    with: its title is the service name, its definitions are the ones
    [gatherTypes] left, and its paths are those of the functions the
    service had before the injection, which comes last. *)
Theorem generate_swagger_command env this :
  let run := run_command env "generate-swagger" this in
  let doc := this_swagger run.1 in
  methods_of_command "generate-swagger"
  = [BeforeGather; GatherTypes; GenerateSwagger; AddEndpointsAndLambda]
  ∧ hooked "before:offline:start:init" = [AddEndpointsAndLambda]
  ∧ run.2
    = [("./swagger.js",
        "// this file was generated by serverless-auto-swagger" +:+ newline
          +:+ "module.exports = " +:+ env_stringify env doc +:+ ";")]
  ∧ paths doc
    = synthesize_paths (env_removeStringFromArray env)
        (functions (serverless_service this))
  ∧ title (info doc) = service (serverless_service this)
  ∧ definitions doc
    = definitions (this_swagger (gatherTypes (env_host env) (beforeGather this)))
  ∧ functions (serverless_service run.1)
    = object_of (functions (serverless_service this)
                   ++ env_swaggerFunctions env).
Proof.
  intros run doc. unfold doc, run, run_command.
  rewrite generate_swagger_methods. cbn [fold_left run_method].
  unfold generateSwagger. cbn [fst snd].
  destruct (gatherTypes_frame (env_host env) (beforeGather this))
    as (_ & Hinfo & _ & _ & Hservice).
  split; [reflexivity|]. split; [reflexivity|]. split; [reflexivity|].
  split; [|split; [|split]].
  - simpl. by rewrite Hservice.
  - simpl. by rewrite Hinfo.
  - reflexivity.
  - simpl. by rewrite Hservice.
Qed.
